(** * Lazy batch pipelines (dataset/pipeline.py)

    A shallow embedding of the [Pipeline] class: the composition operators
    ([+], [@], [*], [join], appending actions), the sequential executor that
    walks an action list against one batch, and the prefetch engine of
    [gen_batch] with its two service threads and three bounded queues.

    Python objects that are shared and mutated in place (pipeline objects and
    the dicts describing actions) live in a store and are named by address;
    Python floats are Rocq's binary64 floats. *)

From Stdlib Require Import ZArith List Bool String Lia Floats Uint63.
From stdpp Require Import base tactics option list strings.

Set Default Proof Using "Type".

(** ** Exceptions and results *)

Inductive exn :=
| ValueError
| TypeError
| AttributeError
| KeyError
| IndexError
| OverflowError
| RecursionError
| ReferenceError
| UnboundLocalError
| SkipBatchException
| RuntimeError.

#[global] Instance exn_eq_dec : EqDecision exn.
Proof. solve_decision. Defined.

Inductive result (A : Type) :=
| Ok (a : A)
| Raise (e : exn).
Arguments Ok {A} a.
Arguments Raise {A} e.

(** ** A state monad with exceptions

    A computation reads and updates a state [S]; when it raises, the state
    reached so far is kept, as a Python object keeps its mutations. *)

Definition ST (S A : Type) : Type := S -> result A * S.

#[global] Instance ST_ret {S} : MRet (ST S) :=
  fun A a s => (Ok a, s).

#[global] Instance ST_bind {S} : MBind (ST S) :=
  fun A B k m s =>
    match m s with
    | (Ok a, s') => k a s'
    | (Raise e, s') => (Raise e, s')
    end.

Definition raise {S A} (e : exn) : ST S A := fun s => (Raise e, s).

Definition lift {S A} (r : result A) : ST S A := fun s => (r, s).

(** [for _ in range(n): x = body(x)] *)
Fixpoint for_range {S A} (n : nat) (body : A -> ST S A) (x : A) : ST S A :=
  match n with
  | O => mret x
  | S k => y ← body x; for_range k body y
  end.

(** ** Python values *)

Definition addr := nat.

(** The values an operator may receive as its right operand or an action as an
    argument. A bool behaves as the int 0 or 1 in every operation used here
    and is represented by it. [VNpInt] is a numpy integer ([np.int64] and the
    like): a number that compares and converts as its value does and is an
    instance of neither [int] nor [float]. *)
Inductive PyVal :=
| VNone
| VInt (z : Z)
| VFloat (f : float)
| VStr (s : string)
| VPipeline (p : addr)
| VNpInt (z : Z).

Definition isinstance_float (v : PyVal) : bool :=
  match v with VFloat _ => true | _ => false end.

Definition isinstance_int (v : PyVal) : bool :=
  match v with VInt _ => true | _ => false end.

(** [int(x)] for a float: truncation toward zero; an infinity raises
    OverflowError and a NaN raises ValueError. *)
Definition int_of_float (f : float) : result Z :=
  match Prim2SF f with
  | S754_zero _ => Ok 0%Z
  | S754_infinity _ => Raise OverflowError
  | S754_nan => Raise ValueError
  | S754_finite s m e =>
      let v := Z.shiftl (Z.pos m) e in
      Ok (if s then (- v)%Z else v)
  end.

(** Two facts about binary64 that the probability operator depends on:
    multiplication commutes, and a float strictly between 0 and 1 truncates
    to 0. *)
Lemma SFmul_comm prec emax x y : SFmul prec emax x y = SFmul prec emax y x.
Proof.
  destruct x as [sx|sx| |sx mx ex], y as [sy|sy| |sy my ey]; unfold SFmul;
    rewrite ?(xorb_comm sx sy);
    first [ rewrite (Pos.mul_comm mx my), (Z.add_comm ex ey); reflexivity
          | reflexivity ].
Qed.

Lemma float_mul_comm (x y : float) : (x * y = y * x)%float.
Proof.
  apply Prim2SF_inj. rewrite !FloatAxioms.mul_spec. apply SFmul_comm.
Qed.

Lemma digits2_pos_bound (m : positive) : (Z.pos m < 2 ^ Z.pos (digits2_pos m))%Z.
Proof.
  induction m as [m IH|m IH|]; cbn [digits2_pos].
  - rewrite Pos2Z.inj_succ, Z.pow_succ_r by lia. lia.
  - rewrite Pos2Z.inj_succ, Z.pow_succ_r by lia. lia.
  - reflexivity.
Qed.

Lemma valid_mantissa_bound s m e :
  valid_binary (S754_finite s m e) = true -> (Z.pos m < 2 ^ 53)%Z.
Proof.
  unfold SpecFloat.valid_binary, bounded, canonical_mantissa, fexp.
  intros V. apply andb_true_iff in V as [V _]. apply Z.eqb_eq in V.
  pose proof (digits2_pos_bound m) as B.
  assert (Z.pos (digits2_pos m) <= 53)%Z as D by (unfold FloatOps.prec in V; lia).
  eapply Z.lt_le_trans; [exact B|]. apply Z.pow_le_mono_r; lia.
Qed.

Lemma SFltb_one m e :
  SFltb (S754_finite false m e) (S754_finite false 4503599627370496 (-52)) = true ->
  (e < -52 \/ e = -52 /\ Z.pos m < 2 ^ 52)%Z.
Proof.
  unfold SFltb, SFcompare.
  destruct (Z.compare_spec e (-52)) as [->|L|G]; [|by left|discriminate].
  rewrite Pos.compare_cont_spec. unfold Pos.switch_Eq.
  destruct (Pos.compare_spec m 4503599627370496) as [?|C|?]; try discriminate.
  intros _. right. split; [reflexivity|]. exact C.
Qed.

Lemma int_of_float_unit (p : float) :
  (0 <? p)%float = true -> (p <? 1)%float = true -> int_of_float p = Ok 0%Z.
Proof.
  rewrite !FloatAxioms.ltb_spec. unfold int_of_float.
  pose proof (Prim2SF_valid p) as V.
  change (Prim2SF 0) with (S754_zero false).
  change (Prim2SF 1) with (S754_finite false 4503599627370496 (-52)).
  destruct (Prim2SF p) as [s|s| |s m e].
  - reflexivity.
  - destruct s; discriminate.
  - discriminate.
  - destruct s; [discriminate|]. intros _ H1.
    apply valid_mantissa_bound in V. apply SFltb_one in H1.
    f_equal. rewrite Z.shiftl_div_pow2 by lia. apply Z.div_small.
    destruct H1 as [L|[-> M]]; [|lia].
    assert (2 ^ 53 <= 2 ^ (- e))%Z by (apply Z.pow_le_mono_r; lia). lia.
Qed.

(** [float(n)] for an int; exact below 2^53 in absolute value. *)
Definition float_of_Z (z : Z) : float :=
  if (z <? 0)%Z then (- PrimFloat.of_uint63 (Uint63.of_Z (- z)))%float
  else PrimFloat.of_uint63 (Uint63.of_Z z).

(** [int(v)]; only reached on floats and ints by the code below. *)
Definition py_int (v : PyVal) : result Z :=
  match v with
  | VInt z | VNpInt z => Ok z
  | VFloat f => int_of_float f
  | VStr _ => Raise ValueError
  | VNone | VPipeline _ => Raise TypeError
  end.

(** [float(v)] *)
Definition py_float (v : PyVal) : result float :=
  match v with
  | VInt z | VNpInt z => Ok (float_of_Z z)
  | VFloat f => Ok f
  | VStr _ => Raise ValueError
  | VNone | VPipeline _ => Raise TypeError
  end.

(** [v in [0, 1]]: membership by [==]. *)
Definition in_0_1 (v : PyVal) : bool :=
  match v with
  | VInt z | VNpInt z => (z =? 0)%Z || (z =? 1)%Z
  | VFloat f => (f =? 0)%float || (f =? 1)%float
  | _ => false
  end.

(** [v < 0]; ordering a non-number against an int raises TypeError. *)
Definition lt_0 (v : PyVal) : result bool :=
  match v with
  | VInt z | VNpInt z => Ok (z <? 0)%Z
  | VFloat f => Ok (f <? 0)%float
  | _ => Raise TypeError
  end.

Definition PIPELINE_ID : string := "#_pipeline".
Definition JOIN_ID : string := "#_join".

(** [mult_option(a, b)]: multiply even if any argument is None. *)
Definition mult_option {A} (mul : A -> A -> A) (a b : option A) : option A :=
  match a, b with
  | Some x, Some y => Some (mul x y)
  | Some x, None => Some x
  | None, _ => b
  end.

(** ** The store: pipeline objects and action dicts *)

Section Pipeline.

(** A source (class [Baseset], which this file's source imports): the pipeline
    code compares two sources with [!=] and tests one with [or], so the model
    takes the type with a decidable equality and its truth value. *)
Context {Dataset : Type} `{EqDecision Dataset}.
Variable truthy : Dataset -> bool.

(** [_is_batch_method(name)]: whether some batch class has a callable
    attribute of that name (decided by the batch classes, outside this file). *)
Variable is_batch_method : string -> bool.

(** One entry of [_action_list]: a dict with the keys the constructors below
    write. [a_pipeline] is the key ['pipeline'] of a nested-pipeline entry and
    [a_datasets] the key ['datasets'] of a join marker; [None] is a missing
    key there. Entries carry no ['tf_queue'] key: [put_into_tf_queue] is not
    part of the model. *)
Record Action := mkAction {
  a_name : string;
  a_args : list PyVal;
  a_kwargs : list (string * PyVal);
  a_proba : option float;
  a_repeat : option Z;
  a_pipeline : option addr;
  a_datasets : option (list Dataset);
}.

(** [d['proba'] = v] and [d['repeat'] = v] on a dict [d]. *)
Definition with_proba (d : Action) (v : option float) : Action :=
  mkAction (a_name d) (a_args d) (a_kwargs d) v (a_repeat d)
           (a_pipeline d) (a_datasets d).

Definition with_repeat (d : Action) (v : option Z) : Action :=
  mkAction (a_name d) (a_args d) (a_kwargs d) (a_proba d) v
           (a_pipeline d) (a_datasets d).

(** A pipeline object: its [dataset] and its own list of references to action
    dicts. The list object itself is never shared between two pipelines (every
    constructor copies it with [[:]]); the dicts in it are. *)
Record PipeObj := mkPipe {
  dataset : option Dataset;
  _action_list : list addr;
}.

Record Store := mkStore {
  actions : list Action;
  pipelines : list PipeObj;
}.

Definition get_pipe (p : addr) : ST Store PipeObj :=
  fun h => match pipelines h !! p with
           | Some o => (Ok o, h)
           | None => (Raise ReferenceError, h)
           end.

Definition new_pipe (o : PipeObj) : ST Store addr :=
  fun h => (Ok (length (pipelines h)), mkStore (actions h) (pipelines h ++ [o])).

Definition set_pipe (p : addr) (o : PipeObj) : ST Store unit :=
  fun h => (Ok tt, mkStore (actions h) (<[p:=o]> (pipelines h))).

Definition get_action (a : addr) : ST Store Action :=
  fun h => match actions h !! a with
           | Some d => (Ok d, h)
           | None => (Raise ReferenceError, h)
           end.

Definition new_action (d : Action) : ST Store addr :=
  fun h => (Ok (length (actions h)), mkStore (actions h ++ [d]) (pipelines h)).

Definition set_action (a : addr) (d : Action) : ST Store unit :=
  fun h => (Ok tt, mkStore (<[a:=d]> (actions h)) (pipelines h)).

(** ** The composition algebra *)

(** [num_actions]: [len(self._action_list)] *)
Definition num_actions (self : addr) : ST Store nat :=
  o ← get_pipe self; mret (length (_action_list o)).

(** [self._action_list[-1]] *)
Definition last_action (self : addr) : ST Store addr :=
  o ← get_pipe self;
  match last (_action_list o) with
  | Some a => mret a
  | None => raise IndexError
  end.

Definition get_last_action_proba (self : addr) : ST Store (option float) :=
  a ← last_action self; d ← get_action a; mret (a_proba d).

Definition get_last_action_repeat (self : addr) : ST Store (option Z) :=
  a ← last_action self; d ← get_action a; mret (a_repeat d).

(** [self._action_list[-1]['proba'] = v]: an update of the dict in place, seen
    by every pipeline whose list holds that dict. *)
Definition set_last_action_proba (self : addr) (v : option float) : ST Store unit :=
  a ← last_action self; d ← get_action a; set_action a (with_proba d v).

(** [self._action_list[-1]['repeat'] = v] *)
Definition set_last_action_repeat (self : addr) (v : option Z) : ST Store unit :=
  a ← last_action self; d ← get_action a; set_action a (with_repeat d v).

(** [Pipeline(dataset, pipeline, proba, repeat)]: allocates the new object and
    runs [__init__] on it. *)
Definition __init__ (ds : option Dataset) (pipeline : option addr)
    (proba : option float) (repeat : option Z) : ST Store addr :=
  match pipeline with
  | None => new_pipe (mkPipe ds [])
  | Some p =>
      o ← get_pipe p;
      self ← new_pipe (mkPipe (dataset o) (_action_list o));
      n ← num_actions self;
      _ ← (if Nat.eqb n 1 then
             match proba, repeat with
             | Some _, _ =>
                 r ← get_last_action_repeat self;
                 match r with
                 | None =>
                     q ← get_last_action_proba self;
                     set_last_action_proba self (mult_option PrimFloat.mul proba q)
                 | Some _ => mret tt
                 end
             | None, Some _ =>
                 q ← get_last_action_proba self;
                 match q with
                 | None =>
                     r ← get_last_action_repeat self;
                     set_last_action_repeat self (mult_option Z.mul repeat r)
                 | Some _ => mret tt
                 end
             | None, None => mret tt
             end
           else mret tt);
      mret self
  end.

(** [append_pipeline]: add a nested pipeline to the log of future actions. *)
Definition append_pipeline (self pipeline : addr)
    (proba : option float) (repeat : option Z) : ST Store unit :=
  a ← new_action (mkAction PIPELINE_ID [] [] proba repeat (Some pipeline) None);
  o ← get_pipe self;
  set_pipe self (mkPipe (dataset o) (_action_list o ++ [a])).

(** [from_pipeline]: create a pipeline from another pipeline. The Python
    [and] evaluates the last action's field only when [num_actions == 1]. *)
Definition from_pipeline (pipeline : addr)
    (proba : option float) (repeat : option Z) : ST Store addr :=
  match proba with
  | None =>
      match repeat with
      | None => __init__ None (Some pipeline) None None
      | Some _ =>
          n ← num_actions pipeline;
          one ← (if Nat.eqb n 1
                 then q ← get_last_action_proba pipeline; mret (bool_decide (q = None))
                 else mret false);
          if (one : bool) then __init__ None (Some pipeline) None repeat
          else
            new_p ← __init__ None None None None;
            _ ← append_pipeline new_p pipeline None repeat;
            mret new_p
      end
  | Some _ =>
      n ← num_actions pipeline;
      one ← (if Nat.eqb n 1
             then r ← get_last_action_repeat pipeline; mret (bool_decide (r = None))
             else mret false);
      if (one : bool) then __init__ None (Some pipeline) proba None
      else
        new_p ← __init__ None None None None;
        _ ← append_pipeline new_p pipeline proba None;
        mret new_p
  end.

(** [a or b] on two optional sources: [a] when it is not None and true. *)
Definition py_or (a b : option Dataset) : option Dataset :=
  match a with
  | Some d => if truthy d then a else b
  | None => b
  end.

(** [concat]: create a new pipeline concatenating two given pipelines. *)
Definition concat (pipe1 pipe2 : addr) : ST Store addr :=
  o1 ← get_pipe pipe1;
  o2 ← get_pipe pipe2;
  if bool_decide (dataset o1 ≠ dataset o2)
     && bool_decide (dataset o1 ≠ None) && bool_decide (dataset o2 ≠ None)
  then raise ValueError
  else
    new_p1 ← from_pipeline pipe1 None None;
    new_p2 ← from_pipeline pipe2 None None;
    n1 ← get_pipe new_p1;
    n2 ← get_pipe new_p2;
    _ ← set_pipe new_p1 (mkPipe (dataset n1) (_action_list n1 ++ _action_list n2));
    n1' ← get_pipe new_p1;
    _ ← set_pipe new_p1 (mkPipe (py_or (dataset o1) (dataset o2)) (_action_list n1'));
    mret new_p1.

(** [self + other] *)
Definition __add__ (self : addr) (other : PyVal) : ST Store addr :=
  match other with
  | VPipeline q =>
      n ← num_actions q;
      if Nat.ltb 0 n then concat self q else mret self
  | _ => raise TypeError
  end.

(** [self @ other] *)
Definition __matmul__ (self : addr) (other : PyVal) : ST Store addr :=
  n ← num_actions self;
  if Nat.eqb n 0 then raise ValueError
  else if negb (isinstance_float other) && negb (in_0_1 other) then raise TypeError
  else
    i ← lift (py_int other);
    p ← (if negb (i =? 1)%Z then f ← lift (py_float other); mret (Some f)
         else mret None);
    from_pipeline self p None.

(** [self * other]; a right operand that gets past both tests and is neither
    a float nor an int (a numpy integer) leaves [new_p] unbound, and
    [return new_p] raises UnboundLocalError. *)
Definition __mul__ (self : addr) (other : PyVal) : ST Store addr :=
  neg ← lift (lt_0 other);
  if (neg : bool) then raise ValueError
  else if isinstance_float other then raise ValueError
  else
    match other with
    | VInt n => from_pipeline self None (Some n)
    | _ => raise UnboundLocalError
    end.

(** [self._action_list.append({...})] *)
Definition push_action (self : addr) (d : Action) : ST Store unit :=
  a ← new_action d;
  o ← get_pipe self;
  set_pipe self (mkPipe (dataset o) (_action_list o ++ [a])).

(** [append_action] called with positional and keyword arguments: complete
    the last dict, hand out a copy of the pipeline that holds it, and drop it
    from [self]. *)
Definition append_action (self : addr) (args : list PyVal)
    (kwargs : list (string * PyVal)) : ST Store addr :=
  a ← last_action self;
  d ← get_action a;
  _ ← set_action a (mkAction (a_name d) args kwargs None None
                             (a_pipeline d) (a_datasets d));
  new_p ← from_pipeline self None None;
  o ← get_pipe self;
  _ ← set_pipe self (mkPipe (dataset o) (removelast (_action_list o)));
  mret new_p.

(** [self.name(...)] for an unknown attribute [name], called with arguments:
    [__getattr__] appends the dict [{'name': name}] and returns the bound
    [append_action], which the call then runs. *)
Definition __getattr__ (self : addr) (name : string) (args : list PyVal)
    (kwargs : list (string * PyVal)) : ST Store addr :=
  if is_batch_method name then
    _ ← push_action self (mkAction name [] [] None None None None);
    append_action self args kwargs
  else raise AttributeError.

(** [join]: join other datasets. *)
Definition join (self : addr) (sets : list Dataset) : ST Store addr :=
  _ ← push_action self (mkAction JOIN_ID [] [] None None None (Some sets));
  append_action self [] [].

(** ** The sequential executor *)

(** A batch (class [BaseBatch] and its subclasses, outside this file): the
    executor reads its [index], asks a joined source for a batch over the same
    index, and calls its actions by name. *)
Context {Batch Index : Type}.
Variable index : Batch -> Index.
Variable create_batch : Dataset -> Index -> Batch.

(** A positional argument of an action call: a joined batch or a recorded value. *)
Inductive Arg :=
| ABatch (b : Batch)
| AVal (v : PyVal).

(** [_get_action_method(batch, name)] followed by the call of the method it
    returns: the new batch, or the exception that either of them raises. *)
Variable call_action :
  Batch -> string -> list Arg -> list (string * PyVal) -> result Batch.

(** [np.random.binomial(n, p)] on the global generator state. *)
Context {Rng : Type}.
Variable binomial : Z -> float -> Rng -> result Z * Rng.

(** One call of an action method, as the executor issued it. *)
Record Call := mkCall {
  c_batch : Batch;
  c_name : string;
  c_args : list Arg;
  c_kwargs : list (string * PyVal);
}.

(** The executor's state: the random generator, and the calls issued so far
    (a record kept for the statements below; the code keeps none). *)
Record ExecSt := mkExecSt {
  rng : Rng;
  calls : list Call;
}.

Definition np_random_binomial (n : Z) (p : float) : ST ExecSt Z :=
  fun s => let '(r, g) := binomial n p (rng s) in (r, mkExecSt g (calls s)).

(** The call of the method that [_get_action_method] returned. *)
Definition invoke (batch : Batch) (name : string) (args : list Arg)
    (kwargs : list (string * PyVal)) : ST ExecSt Batch :=
  fun s => (call_action batch name args kwargs,
            mkExecSt (rng s) (calls s ++ [mkCall batch name args kwargs])).

Definition _needs_exec (action : Action) : ST ExecSt bool :=
  match a_proba action with
  | None => mret true
  | Some p => x ← np_random_binomial 1 p; mret (x =? 1)%Z
  end.

(** [range(action['repeat'] or 1)]: None and 0 both give one round; a
    negative count gives none. *)
Definition rounds (r : option Z) : nat :=
  match r with
  | None => 1
  | Some 0%Z => 1
  | Some n => Z.to_nat n
  end.

Definition _exec_one_action (batch : Batch) (action : Action) (args : list Arg)
    (kwargs : list (string * PyVal)) : ST ExecSt Batch :=
  fire ← _needs_exec action;
  if (fire : bool) then
    for_range (rounds (a_repeat action))
      (fun b => invoke b (a_name action) args kwargs) batch
  else mret batch.

Section Exec.

(** The store is only read while a batch is executed. *)
Variable h : Store.

(** [_exec_nested_pipeline], given the executor to run on the inner list. *)
Definition _exec_nested_pipeline
    (exec_all : Batch -> list addr -> ST ExecSt Batch)
    (batch : Batch) (action : Action) : ST ExecSt Batch :=
  fire ← _needs_exec action;
  if (fire : bool) then
    for_range (rounds (a_repeat action))
      (fun b =>
         match a_pipeline action with
         | None => raise KeyError
         | Some p =>
             match pipelines h !! p with
             | None => raise ReferenceError
             | Some o => exec_all b (_action_list o)
             end
         end) batch
  else mret batch.

(** The [for] loop of [_exec_all_actions], with [joined_sets] and [batch] as
    its loop state. *)
Fixpoint exec_loop (exec_all : Batch -> list addr -> ST ExecSt Batch)
    (joined_sets : option (list Dataset)) (batch : Batch)
    (action_list : list addr) : ST ExecSt Batch :=
  match action_list with
  | [] => mret batch
  | a :: rest =>
      match actions h !! a with
      | None => raise ReferenceError
      | Some _action =>
          if String.eqb (a_name _action) JOIN_ID then
            match a_datasets _action with
            | None => raise KeyError
            | Some sets => exec_loop exec_all (Some sets) batch rest
            end
          else if String.eqb (a_name _action) PIPELINE_ID then
            b ← _exec_nested_pipeline exec_all batch _action;
            exec_loop exec_all joined_sets b rest
          else
            let _action_args :=
              match joined_sets with
              | Some sets =>
                  map (fun jset => ABatch (create_batch jset (index batch))) sets
                  ++ map AVal (a_args _action)
              | None => map AVal (a_args _action)
              end in
            b ← _exec_one_action batch _action _action_args (a_kwargs _action);
            exec_loop exec_all None b rest
      end
  end.

(** [_exec_all_actions(batch, action_list)]. [depth] bounds the nesting of
    calls, as the interpreter's recursion limit does; an empty (or omitted)
    [action_list] is replaced by the pipeline's own list. *)
Fixpoint _exec_all_actions (depth : nat) (self : addr) (batch : Batch)
    (action_list : list addr) : ST ExecSt Batch :=
  match depth with
  | O => raise RecursionError
  | S d =>
      match action_list with
      | [] =>
          match pipelines h !! self with
          | None => raise ReferenceError
          | Some o => exec_loop (_exec_all_actions d self) None batch (_action_list o)
          end
      | _ => exec_loop (_exec_all_actions d self) None batch action_list
      end
  end.

(** [_exec(batch)] *)
Definition _exec (depth : nat) (self : addr) (batch : Batch) : ST ExecSt Batch :=
  _exec_all_actions depth self batch [].

End Exec.

(** ** Running the store operations *)

Implicit Types (h : Store) (o : PipeObj) (d : Action).

Lemma bind_run {S A B} (m : ST S A) (k : A -> ST S B) s :
  (x ← m; k x) s
  = match m s with
    | (Ok a, s') => k a s'
    | (Raise e, s') => (Raise e, s')
    end.
Proof. reflexivity. Qed.

Lemma lift_run {S A} (r : result A) (s : S) : lift r s = (r, s).
Proof. reflexivity. Qed.

Lemma get_pipe_eq h p o :
  pipelines h !! p = Some o -> get_pipe p h = (Ok o, h).
Proof. intros E. unfold get_pipe. by rewrite E. Qed.

Lemma get_action_eq h a d :
  actions h !! a = Some d -> get_action a h = (Ok d, h).
Proof. intros E. unfold get_action. by rewrite E. Qed.

Lemma num_actions_eq h p o :
  pipelines h !! p = Some o ->
  num_actions p h = (Ok (length (_action_list o)), h).
Proof.
  intros E. unfold num_actions. by rewrite bind_run, (get_pipe_eq _ _ _ E).
Qed.

Lemma last_action_eq h p o a :
  pipelines h !! p = Some o -> last (_action_list o) = Some a ->
  last_action p h = (Ok a, h).
Proof.
  intros E L. unfold last_action. by rewrite bind_run, (get_pipe_eq _ _ _ E), L.
Qed.

Lemma get_last_action_proba_eq h p o a d :
  pipelines h !! p = Some o -> last (_action_list o) = Some a ->
  actions h !! a = Some d ->
  get_last_action_proba p h = (Ok (a_proba d), h).
Proof.
  intros E L D. unfold get_last_action_proba.
  by rewrite bind_run, (last_action_eq _ _ _ _ E L), bind_run, (get_action_eq _ _ _ D).
Qed.

Lemma get_last_action_repeat_eq h p o a d :
  pipelines h !! p = Some o -> last (_action_list o) = Some a ->
  actions h !! a = Some d ->
  get_last_action_repeat p h = (Ok (a_repeat d), h).
Proof.
  intros E L D. unfold get_last_action_repeat.
  by rewrite bind_run, (last_action_eq _ _ _ _ E L), bind_run, (get_action_eq _ _ _ D).
Qed.

(** The new object of a constructor call is the next free address. *)
Lemma lookup_new_pipe h o : (pipelines h ++ [o]) !! length (pipelines h) = Some o.
Proof. by rewrite lookup_app_r, Nat.sub_diag. Qed.

Lemma lookup_old_pipe h o p o' :
  pipelines h !! p = Some o' -> (pipelines h ++ [o]) !! p = Some o'.
Proof. intros E. by apply lookup_app_l_Some. Qed.

(** [Pipeline()]: an empty, unbound pipeline. *)
Lemma init_empty h ds :
  __init__ ds None None None h
  = (Ok (length (pipelines h)), mkStore (actions h) (pipelines h ++ [mkPipe ds []])).
Proof. reflexivity. Qed.

(** [Pipeline(pipeline=p)]: a copy of the list, same dicts, same source. *)
Lemma init_copy h p o :
  pipelines h !! p = Some o ->
  __init__ None (Some p) None None h
  = (Ok (length (pipelines h)),
     mkStore (actions h) (pipelines h ++ [mkPipe (dataset o) (_action_list o)])).
Proof.
  intros E. unfold __init__.
  rewrite bind_run, (get_pipe_eq _ _ _ E). unfold new_pipe; rewrite bind_run.
  rewrite bind_run, (num_actions_eq _ _ (mkPipe (dataset o) (_action_list o)))
    by apply lookup_new_pipe.
  cbn [_action_list]. rewrite bind_run. by destruct (Nat.eqb _ 1).
Qed.

Lemma from_pipeline_copy h p o :
  pipelines h !! p = Some o ->
  from_pipeline p None None h
  = (Ok (length (pipelines h)),
     mkStore (actions h) (pipelines h ++ [mkPipe (dataset o) (_action_list o)])).
Proof. apply init_copy. Qed.

Lemma set_pipe_eq h p o :
  set_pipe p o h = (Ok tt, mkStore (actions h) (<[p:=o]> (pipelines h))).
Proof. reflexivity. Qed.

Lemma set_action_eq h a d :
  set_action a d h = (Ok tt, mkStore (<[a:=d]> (actions h)) (pipelines h)).
Proof. reflexivity. Qed.

Lemma new_action_eq h d :
  new_action d h = (Ok (length (actions h)), mkStore (actions h ++ [d]) (pipelines h)).
Proof. reflexivity. Qed.

Ltac st_run :=
  repeat first
    [ rewrite bind_run | rewrite set_pipe_eq | rewrite set_action_eq
    | rewrite new_action_eq
    | progress cbn [pipelines actions _action_list dataset mret ST_ret] ].

Lemma insert_new_pipe (l : list PipeObj) x y tl :
  <[length l := y]> (l ++ x :: tl) = l ++ y :: tl.
Proof. by rewrite insert_app_r_alt, Nat.sub_diag by lia. Qed.

(** What [concat] computes on two pipelines of the store: the second copy
    ([new_p2]) stays behind as an unreferenced object. *)
Lemma concat_eq h pipe1 pipe2 o1 o2 :
  pipelines h !! pipe1 = Some o1 -> pipelines h !! pipe2 = Some o2 ->
  concat pipe1 pipe2 h
  = if bool_decide (dataset o1 ≠ dataset o2)
       && bool_decide (dataset o1 ≠ None) && bool_decide (dataset o2 ≠ None)
    then (Raise ValueError, h)
    else (Ok (length (pipelines h)),
          mkStore (actions h)
            (pipelines h
             ++ [mkPipe (py_or (dataset o1) (dataset o2))
                        (_action_list o1 ++ _action_list o2);
                 mkPipe (dataset o2) (_action_list o2)])).
Proof.
  intros E1 E2. unfold concat.
  rewrite bind_run, (get_pipe_eq _ _ _ E1), bind_run, (get_pipe_eq _ _ _ E2).
  destruct (_ && _); [done|].
  rewrite bind_run, (from_pipeline_copy _ _ _ E1).
  set (c1 := mkPipe (dataset o1) (_action_list o1)).
  set (h1 := mkStore _ _).
  assert (F2 : pipelines h1 !! pipe2 = Some o2) by by apply lookup_old_pipe.
  rewrite bind_run, (from_pipeline_copy _ _ _ F2).
  set (c2 := mkPipe (dataset o2) (_action_list o2)).
  set (h2 := mkStore _ _).
  assert (G1 : pipelines h2 !! length (pipelines h) = Some c1).
  { subst h2 h1. cbn [pipelines]. apply lookup_app_l_Some, lookup_new_pipe. }
  assert (G2 : pipelines h2 !! length (pipelines h1) = Some c2).
  { subst h2. cbn [pipelines]. by rewrite lookup_app_r, Nat.sub_diag. }
  rewrite bind_run, (get_pipe_eq _ _ _ G1), bind_run, (get_pipe_eq _ _ _ G2).
  rewrite bind_run, set_pipe_eq, bind_run.
  subst h2 h1. cbn [pipelines actions]. rewrite <- app_assoc. cbn [app].
  rewrite insert_new_pipe.
  erewrite get_pipe_eq
    by (cbn [pipelines]; rewrite (lookup_app_r (pipelines h)), Nat.sub_diag by lia;
        reflexivity).
  rewrite bind_run, set_pipe_eq. cbn [pipelines actions _action_list dataset].
  by rewrite insert_new_pipe.
Qed.

(** In-place composition: on a single-action pipeline whose action has no
    repeat count, the constructor multiplies the new probability into the dict
    that the copy shares with the original. *)
Lemma init_proba_single h p o a d pr :
  pipelines h !! p = Some o -> _action_list o = [a] ->
  actions h !! a = Some d -> a_repeat d = None ->
  __init__ None (Some p) (Some pr) None h
  = (Ok (length (pipelines h)),
     mkStore (<[a := with_proba d (mult_option PrimFloat.mul (Some pr) (a_proba d))]>
                (actions h))
             (pipelines h ++ [mkPipe (dataset o) [a]])).
Proof.
  intros E L D R. unfold __init__.
  rewrite bind_run, (get_pipe_eq _ _ _ E). unfold new_pipe; rewrite bind_run, L.
  set (c := mkPipe (dataset o) [a]). set (h1 := mkStore _ _).
  assert (F : pipelines h1 !! length (pipelines h) = Some c) by apply lookup_new_pipe.
  assert (La : last (_action_list c) = Some a) by done.
  assert (D1 : actions h1 !! a = Some d) by done.
  rewrite bind_run, (num_actions_eq _ _ _ F).
  change (length (_action_list c) =? 1) with true. cbv iota.
  rewrite !bind_run, (get_last_action_repeat_eq _ _ _ _ _ F La D1), R.
  rewrite bind_run, (get_last_action_proba_eq _ _ _ _ _ F La D1).
  unfold set_last_action_proba.
  by rewrite bind_run, (last_action_eq _ _ _ _ F La), bind_run,
    (get_action_eq _ _ _ D1), set_action_eq.
Qed.

Lemma init_repeat_single h p o a d n :
  pipelines h !! p = Some o -> _action_list o = [a] ->
  actions h !! a = Some d -> a_proba d = None ->
  __init__ None (Some p) None (Some n) h
  = (Ok (length (pipelines h)),
     mkStore (<[a := with_repeat d (mult_option Z.mul (Some n) (a_repeat d))]>
                (actions h))
             (pipelines h ++ [mkPipe (dataset o) [a]])).
Proof.
  intros E L D R. unfold __init__.
  rewrite bind_run, (get_pipe_eq _ _ _ E). unfold new_pipe; rewrite bind_run, L.
  set (c := mkPipe (dataset o) [a]). set (h1 := mkStore _ _).
  assert (F : pipelines h1 !! length (pipelines h) = Some c) by apply lookup_new_pipe.
  assert (La : last (_action_list c) = Some a) by done.
  assert (D1 : actions h1 !! a = Some d) by done.
  rewrite bind_run, (num_actions_eq _ _ _ F).
  change (length (_action_list c) =? 1) with true. cbv iota.
  rewrite !bind_run, (get_last_action_proba_eq _ _ _ _ _ F La D1), R.
  rewrite bind_run, (get_last_action_repeat_eq _ _ _ _ _ F La D1).
  unfold set_last_action_repeat.
  by rewrite bind_run, (last_action_eq _ _ _ _ F La), bind_run,
    (get_action_eq _ _ _ D1), set_action_eq.
Qed.

Lemma from_pipeline_proba_single h p o a d pr :
  pipelines h !! p = Some o -> _action_list o = [a] ->
  actions h !! a = Some d -> a_repeat d = None ->
  from_pipeline p (Some pr) None h
  = (Ok (length (pipelines h)),
     mkStore (<[a := with_proba d (mult_option PrimFloat.mul (Some pr) (a_proba d))]>
                (actions h))
             (pipelines h ++ [mkPipe (dataset o) [a]])).
Proof.
  intros E L D R. unfold from_pipeline.
  rewrite bind_run, (num_actions_eq _ _ _ E), L. cbn [length Nat.eqb].
  assert (La : last (_action_list o) = Some a) by by rewrite L.
  rewrite !bind_run, (get_last_action_repeat_eq _ _ _ _ _ E La D), R.
  cbn. by apply init_proba_single.
Qed.

Lemma from_pipeline_repeat_single h p o a d n :
  pipelines h !! p = Some o -> _action_list o = [a] ->
  actions h !! a = Some d -> a_proba d = None ->
  from_pipeline p None (Some n) h
  = (Ok (length (pipelines h)),
     mkStore (<[a := with_repeat d (mult_option Z.mul (Some n) (a_repeat d))]>
                (actions h))
             (pipelines h ++ [mkPipe (dataset o) [a]])).
Proof.
  intros E L D R. unfold from_pipeline.
  rewrite bind_run, (num_actions_eq _ _ _ E), L. cbn [length Nat.eqb].
  assert (La : last (_action_list o) = Some a) by by rewrite L.
  rewrite !bind_run, (get_last_action_proba_eq _ _ _ _ _ E La D), R.
  cbn. by apply init_repeat_single.
Qed.

(** Wrapping: on any other number of actions the operand becomes the single
    nested-pipeline entry of a fresh, unbound pipeline. *)
Lemma append_pipeline_fresh h p proba repeat :
  (_ ← append_pipeline (length (pipelines h)) p proba repeat;
   mret (length (pipelines h)))
    (mkStore (actions h) (pipelines h ++ [mkPipe None []]))
  = (Ok (length (pipelines h)),
     mkStore (actions h ++ [mkAction PIPELINE_ID [] [] proba repeat (Some p) None])
             (pipelines h ++ [mkPipe None [length (actions h)]])).
Proof.
  unfold append_pipeline. st_run.
  erewrite get_pipe_eq by (cbn [pipelines]; apply lookup_new_pipe).
  st_run. cbn [app]. by rewrite insert_new_pipe.
Qed.

Lemma from_pipeline_proba_nested h p o pr :
  pipelines h !! p = Some o -> length (_action_list o) ≠ 1 ->
  from_pipeline p (Some pr) None h
  = (Ok (length (pipelines h)),
     mkStore (actions h ++ [mkAction PIPELINE_ID [] [] (Some pr) None (Some p) None])
             (pipelines h ++ [mkPipe None [length (actions h)]])).
Proof.
  intros E L. unfold from_pipeline.
  rewrite bind_run, (num_actions_eq _ _ _ E).
  destruct (Nat.eqb_spec (length (_action_list o)) 1) as [|_]; [done|].
  rewrite !bind_run. cbn [mret ST_ret]. rewrite bind_run, init_empty.
  apply append_pipeline_fresh.
Qed.

Lemma from_pipeline_repeat_nested h p o n :
  pipelines h !! p = Some o -> length (_action_list o) ≠ 1 ->
  from_pipeline p None (Some n) h
  = (Ok (length (pipelines h)),
     mkStore (actions h ++ [mkAction PIPELINE_ID [] [] None (Some n) (Some p) None])
             (pipelines h ++ [mkPipe None [length (actions h)]])).
Proof.
  intros E L. unfold from_pipeline.
  rewrite bind_run, (num_actions_eq _ _ _ E).
  destruct (Nat.eqb_spec (length (_action_list o)) 1) as [|_]; [done|].
  rewrite !bind_run. cbn [mret ST_ret]. rewrite bind_run, init_empty.
  apply append_pipeline_fresh.
Qed.

(** ** Properties of the composition operators *)

(** C4 on the code. [concat(P, Q)] raises exactly when both pipelines are
    bound and their sources differ. Otherwise it returns a new pipeline
    object, whose action list is P's followed by Q's (the same dicts), and no
    existing dict or pipeline changes. The source of the result is chosen by
    [pipe1.dataset or pipe2.dataset], which tests the truth value of P's
    source and not whether it is None: it is P's source when P is bound to a
    source that is true, and Q's binding otherwise. So for a P bound to a
    source that is false and an unbound Q the result is unbound, and P's
    source is lost. *)
Theorem concat_spec h pipe1 pipe2 o1 o2 :
  pipelines h !! pipe1 = Some o1 -> pipelines h !! pipe2 = Some o2 ->
  let clash := dataset o1 ≠ None /\ dataset o2 ≠ None /\ dataset o1 ≠ dataset o2 in
  ((exists e, (concat pipe1 pipe2 h).1 = Raise e) <-> clash)
  /\ (~ clash ->
      exists new_p h',
        concat pipe1 pipe2 h = (Ok new_p, h')
        /\ pipelines h !! new_p = None
        /\ pipelines h' !! new_p
           = Some (mkPipe (match dataset o1 with
                           | Some ds => if truthy ds then Some ds else dataset o2
                           | None => dataset o2
                           end)
                          (_action_list o1 ++ _action_list o2))
        /\ actions h' = actions h
        /\ forall p o, pipelines h !! p = Some o -> pipelines h' !! p = Some o)
  /\ (forall ds, dataset o1 = Some ds -> truthy ds = false -> dataset o2 = None ->
      exists new_p h',
        concat pipe1 pipe2 h = (Ok new_p, h')
        /\ pipelines h' !! new_p
           = Some (mkPipe None (_action_list o1 ++ _action_list o2))).
Proof.
  intros E1 E2 clash. rewrite (concat_eq _ _ _ _ _ E1 E2).
  assert (C : bool_decide (dataset o1 ≠ dataset o2) && bool_decide (dataset o1 ≠ None)
              && bool_decide (dataset o2 ≠ None) = true <-> clash).
  { rewrite !andb_true_iff, !bool_decide_eq_true. subst clash. tauto. }
  assert (K : ~ clash ->
    bool_decide (dataset o1 ≠ dataset o2) && bool_decide (dataset o1 ≠ None)
    && bool_decide (dataset o2 ≠ None) = false).
  { intros N. destruct (_ && _); [|done]. destruct N. by apply C. }
  split; [|split].
  - destruct (_ && _) eqn:B.
    + split; [intros _; by apply C|]. intros _. by exists ValueError.
    + split; [intros [e ?]; discriminate|]. intros N. apply C in N. discriminate.
  - intros N. rewrite (K N).
    eexists _, _. split; [reflexivity|]. cbn [pipelines actions].
    split; [apply lookup_ge_None_2; lia|].
    split.
    { rewrite lookup_app_r, Nat.sub_diag by lia. cbn. do 2 f_equal.
      unfold py_or. by destruct (dataset o1) as [ds|]. }
    split; [done|]. intros p o Ep. by apply lookup_app_l_Some.
  - intros ds D T Q. rewrite K by (intros (_ & N & _); by apply N).
    eexists _, _. split; [reflexivity|]. cbn [pipelines].
    rewrite lookup_app_r, Nat.sub_diag by lia. cbn. unfold py_or.
    by rewrite D, T, Q.
Qed.

(** C10. [P + Q] for a [Q] without actions returns the very object [P]: the
    result is P's address and the store is the one before the call, so
    nothing was copied and nothing changed. *)
Theorem add_empty_right h P Q oq :
  pipelines h !! Q = Some oq -> _action_list oq = [] ->
  __add__ P (VPipeline Q) h = (Ok P, h).
Proof.
  intros E L. unfold __add__. by rewrite bind_run, (num_actions_eq _ _ _ E), L.
Qed.

(** What [@] and [*] reduce to once the operand passed the checks. *)
Lemma matmul_float h P o f i :
  pipelines h !! P = Some o -> _action_list o ≠ [] -> int_of_float f = Ok i ->
  __matmul__ P (VFloat f) h
  = from_pipeline P (if (i =? 1)%Z then None else Some f) None h.
Proof.
  intros E L I. unfold __matmul__.
  rewrite bind_run, (num_actions_eq _ _ _ E).
  destruct (_action_list o) as [|a l] eqn:La; [done|]. cbn [length Nat.eqb].
  cbn [isinstance_float negb andb py_int]. rewrite bind_run, lift_run, I.
  destruct (i =? 1)%Z; cbn [negb]; by rewrite bind_run.
Qed.

Lemma mul_int h P n :
  (0 <= n)%Z -> __mul__ P (VInt n) h = from_pipeline P None (Some n) h.
Proof.
  intros N. unfold __mul__, lt_0. rewrite bind_run, lift_run.
  destruct (Z.ltb_spec n 0); [lia|done].
Qed.

Lemma with_proba_twice d x y : with_proba (with_proba d x) y = with_proba d y.
Proof. reflexivity. Qed.

Lemma with_repeat_twice d x y : with_repeat (with_repeat d x) y = with_repeat d y.
Proof. reflexivity. Qed.

(** C5, as the code has it. On a pipeline with exactly one action whose
    repeat field is unset, applying probability p1 and then p2 (floats
    strictly between 0 and 1) yields a pipeline over the same single action
    dict, which then carries p1*p2 when its probability was unset before, and
    p2*(p1*q) when it was q. Symmetrically, when the probability field is
    unset, repeat m and then repeat n (non-negative ints) leave m*n on it when
    its repeat field was unset, and m*n*r when it was r. *)
Theorem compose_twice h P o a d :
  pipelines h !! P = Some o -> _action_list o = [a] -> actions h !! a = Some d ->
  (forall p1 p2 : float,
      a_repeat d = None ->
      (0 <? p1)%float = true -> (p1 <? 1)%float = true ->
      (0 <? p2)%float = true -> (p2 <? 1)%float = true ->
      exists Q R h1 h2,
        __matmul__ P (VFloat p1) h = (Ok Q, h1)
        /\ __matmul__ Q (VFloat p2) h1 = (Ok R, h2)
        /\ pipelines h2 !! R = Some (mkPipe (dataset o) [a])
        /\ actions h2 !! a
           = Some (with_proba d (Some match a_proba d with
                                      | None => (p1 * p2)%float
                                      | Some q => (p2 * (p1 * q))%float
                                      end)))
  /\ (forall m n : Z,
      a_proba d = None -> (0 <= m)%Z -> (0 <= n)%Z ->
      exists Q R h1 h2,
        __mul__ P (VInt m) h = (Ok Q, h1)
        /\ __mul__ Q (VInt n) h1 = (Ok R, h2)
        /\ pipelines h2 !! R = Some (mkPipe (dataset o) [a])
        /\ actions h2 !! a
           = Some (with_repeat d (Some match a_repeat d with
                                       | None => (m * n)%Z
                                       | Some r => (m * n * r)%Z
                                       end))).
Proof.
  intros E L D. pose proof (lookup_lt_Some _ _ _ D) as Ha.
  assert (Lne : _action_list o ≠ []) by by rewrite L.
  split.
  - intros p1 p2 R A1 B1 A2 B2.
    set (d1 := with_proba d (mult_option PrimFloat.mul (Some p1) (a_proba d))).
    set (h1 := mkStore (<[a:=d1]> (actions h)) (pipelines h ++ [mkPipe (dataset o) [a]])).
    assert (E1 : pipelines h1 !! length (pipelines h) = Some (mkPipe (dataset o) [a]))
      by apply lookup_new_pipe.
    assert (D1 : actions h1 !! a = Some d1) by by apply list_lookup_insert_eq.
    eexists (length (pipelines h)), (length (pipelines h1)), h1, _.
    split.
    { rewrite (matmul_float _ _ _ _ _ E Lne (int_of_float_unit _ A1 B1)).
      cbn [Z.eqb]. by apply from_pipeline_proba_single. }
    split.
    { rewrite (matmul_float h1 _ (mkPipe (dataset o) [a]) p2 0%Z E1)
        by (done || by apply int_of_float_unit).
      cbn [Z.eqb]. by apply (from_pipeline_proba_single h1 _ (mkPipe (dataset o) [a]) a d1). }
    subst h1. cbn [pipelines actions dataset]. split; [by apply list_lookup_middle|].
    rewrite list_lookup_insert_eq by by rewrite length_insert.
    subst d1. rewrite with_proba_twice. do 3 f_equal. cbn [a_proba with_proba].
    destruct (a_proba d); cbn [mult_option]; [done|]. f_equal. apply float_mul_comm.
  - intros m n R Hm Hn.
    set (d1 := with_repeat d (mult_option Z.mul (Some m) (a_repeat d))).
    set (h1 := mkStore (<[a:=d1]> (actions h)) (pipelines h ++ [mkPipe (dataset o) [a]])).
    assert (E1 : pipelines h1 !! length (pipelines h) = Some (mkPipe (dataset o) [a]))
      by apply lookup_new_pipe.
    assert (D1 : actions h1 !! a = Some d1) by by apply list_lookup_insert_eq.
    eexists (length (pipelines h)), (length (pipelines h1)), h1, _.
    split; [rewrite mul_int by done; by apply from_pipeline_repeat_single|].
    split.
    { rewrite mul_int by done.
      by apply (from_pipeline_repeat_single h1 _ (mkPipe (dataset o) [a]) a d1). }
    subst h1. cbn [pipelines actions dataset]. split; [by apply list_lookup_middle|].
    rewrite list_lookup_insert_eq by by rewrite length_insert.
    subst d1. rewrite with_repeat_twice. do 3 f_equal. cbn [a_repeat with_repeat].
    destruct (a_repeat d); cbn [mult_option]; f_equal; lia.
Qed.

Lemma from_pipeline_proba_nested_single h p o a d pr :
  pipelines h !! p = Some o -> _action_list o = [a] ->
  actions h !! a = Some d -> a_repeat d ≠ None ->
  from_pipeline p (Some pr) None h
  = (Ok (length (pipelines h)),
     mkStore (actions h ++ [mkAction PIPELINE_ID [] [] (Some pr) None (Some p) None])
             (pipelines h ++ [mkPipe None [length (actions h)]])).
Proof.
  intros E L D R. unfold from_pipeline.
  rewrite bind_run, (num_actions_eq _ _ _ E), L. cbn [length Nat.eqb].
  assert (La : last (_action_list o) = Some a) by by rewrite L.
  rewrite !bind_run, (get_last_action_repeat_eq _ _ _ _ _ E La D).
  cbn [mret ST_ret]. rewrite bool_decide_eq_false_2 by done.
  rewrite bind_run, init_empty. apply append_pipeline_fresh.
Qed.

(** Every address in a pipeline's list names a dict of the store. *)
Definition allocated h o : Prop :=
  Forall (fun a => is_Some (actions h !! a)) (_action_list o).

Lemma from_pipeline_proba_ok h p o pr :
  pipelines h !! p = Some o -> allocated h o ->
  exists R h', from_pipeline p (Some pr) None h = (Ok R, h').
Proof.
  intros E W.
  destruct (decide (length (_action_list o) = 1)) as [L1|L1].
  - destruct (_action_list o) as [|a [|? ?]] eqn:L; try done.
    unfold allocated in W. rewrite L in W.
    apply Forall_cons in W as [[d D] _].
    destruct (a_repeat d) as [r|] eqn:R.
    + eexists _, _. apply (from_pipeline_proba_nested_single _ _ _ _ _ _ E L D).
      by rewrite R.
    + eexists _, _. by apply (from_pipeline_proba_single _ _ _ _ _ _ E L D).
  - eexists _, _. by apply (from_pipeline_proba_nested _ _ _ _ E).
Qed.

(** What [@] hands to [from_pipeline] for an operand that passes its checks:
    nothing when the integer part of the operand is 1, and [float(other)]
    otherwise. *)
Definition accepted_proba (p : PyVal) (q : option float) : Prop :=
  match p with
  | VFloat f =>
      exists i, int_of_float f = Ok i /\ q = if (i =? 1)%Z then None else Some f
  | VInt z | VNpInt z =>
      z = 0%Z /\ q = Some 0%float \/ z = 1%Z /\ q = None
  | _ => False
  end.

Lemma matmul_eq h P o p q :
  pipelines h !! P = Some o -> _action_list o ≠ [] -> accepted_proba p q ->
  __matmul__ P p h = from_pipeline P q None h.
Proof.
  intros E L A. unfold __matmul__.
  rewrite bind_run, (num_actions_eq _ _ _ E).
  destruct (_action_list o) as [|a l] eqn:La; [done|]. cbn [length Nat.eqb].
  destruct p as [|z|f|?|?|z]; try done; cbn in A.
  - destruct A as [[-> ->]|[-> ->]]; reflexivity.
  - destruct A as (i & I & ->).
    cbn [isinstance_float negb andb py_int]. rewrite bind_run, lift_run, I.
    destruct (i =? 1)%Z; cbn [negb]; by rewrite bind_run.
  - destruct A as [[-> ->]|[-> ->]]; reflexivity.
Qed.

(** C6, as the code has it. [P @ p] raises ValueError on a pipeline without
    actions. On a pipeline with actions every operand is in exactly one of
    three cases. An operand that is neither a float nor equal to 0 or 1 raises
    TypeError. A float that [int] rejects (a NaN or an infinity) raises what
    [int] raises. Every other operand is accepted, whatever its value: nothing
    confines it to the interval from 0 to 1. An accepted operand whose integer
    part is 1 (1, 1.0, but also 1.5) records nothing: the result is a plain
    copy. Any other accepted operand counts as [v = float(p)]: on a pipeline
    with a single action without repeat count, [v] is written to the action's
    dict, multiplied by the probability already there if there is one; on
    every other pipeline the result is a new, unbound pipeline whose single
    entry is a nested-pipeline dict with probability [v]. Nothing has changed
    when the operator raises. *)
Theorem matmul_checks h P o :
  pipelines h !! P = Some o ->
  (_action_list o = [] -> forall p, __matmul__ P p h = (Raise ValueError, h))
  /\ (_action_list o ≠ [] ->
      (forall p,
          isinstance_float p = false /\ in_0_1 p = false
          \/ (exists f e, p = VFloat f /\ int_of_float f = Raise e)
          \/ exists q, accepted_proba p q)
      /\ (forall p, isinstance_float p = false -> in_0_1 p = false ->
                    __matmul__ P p h = (Raise TypeError, h))
      /\ (forall f e, int_of_float f = Raise e ->
                      __matmul__ P (VFloat f) h = (Raise e, h))
      /\ (forall p, accepted_proba p None ->
                    __matmul__ P p h
                    = (Ok (length (pipelines h)),
                       mkStore (actions h)
                         (pipelines h ++ [mkPipe (dataset o) (_action_list o)])))
      /\ (forall p v a d,
            accepted_proba p (Some v) ->
            _action_list o = [a] -> actions h !! a = Some d -> a_repeat d = None ->
            __matmul__ P p h
            = (Ok (length (pipelines h)),
               mkStore (<[a := with_proba d (Some match a_proba d with
                                                  | None => v
                                                  | Some q => (v * q)%float
                                                  end)]> (actions h))
                       (pipelines h ++ [mkPipe (dataset o) [a]])))
      /\ (forall p v,
            accepted_proba p (Some v) ->
            length (_action_list o) ≠ 1
            \/ (exists a d, _action_list o = [a] /\ actions h !! a = Some d
                            /\ a_repeat d ≠ None) ->
            __matmul__ P p h
            = (Ok (length (pipelines h)),
               mkStore (actions h
                        ++ [mkAction PIPELINE_ID [] [] (Some v) None (Some P) None])
                       (pipelines h ++ [mkPipe None [length (actions h)]])))).
Proof.
  intros E. split.
  - intros L p. unfold __matmul__.
    by rewrite bind_run, (num_actions_eq _ _ _ E), L.
  - intros L.
    assert (N : forall p,
      __matmul__ P p h
      = (if negb (isinstance_float p) && negb (in_0_1 p) then raise TypeError
         else i ← lift (py_int p);
              q ← (if negb (i =? 1)%Z then f ← lift (py_float p); mret (Some f)
                   else mret None);
              from_pipeline P q None) h).
    { intros p. unfold __matmul__.
      rewrite bind_run, (num_actions_eq _ _ _ E).
      by destruct (_action_list o). }
    split; [|split; [|split; [|split; [|split]]]].
    + intros p. destruct p as [|z|f|?|?|z]; cbn; try by left.
      * destruct (Z.eqb_spec z 0) as [->|?]; [right; right; exists (Some 0%float); by left|].
        destruct (Z.eqb_spec z 1) as [->|?]; [right; right; exists None; by right|].
        by left.
      * right. destruct (int_of_float f) as [i|e] eqn:I; [right|left; by exists f, e].
        eexists. by exists i.
      * destruct (Z.eqb_spec z 0) as [->|?]; [right; right; exists (Some 0%float); by left|].
        destruct (Z.eqb_spec z 1) as [->|?]; [right; right; exists None; by right|].
        by left.
    + intros p F I. by rewrite (N p), F, I.
    + intros f e I. rewrite N. cbn [isinstance_float negb andb py_int].
      by rewrite bind_run, lift_run, I.
    + intros p A. rewrite (matmul_eq _ _ _ _ _ E L A). by apply from_pipeline_copy.
    + intros p v a d A La D R. rewrite (matmul_eq _ _ _ _ _ E L A).
      rewrite (from_pipeline_proba_single _ _ _ _ _ _ E La D R).
      by destruct (a_proba d).
    + intros p v A W. rewrite (matmul_eq _ _ _ _ _ E L A).
      destruct W as [W|(a & d & La & D & R)].
      * by apply (from_pipeline_proba_nested _ _ _ _ E).
      * by apply (from_pipeline_proba_nested_single _ _ _ _ _ _ E La D).
Qed.

(** C7, as the code has it. Applying [@] or [*] to a pipeline with two or
    more actions raises nothing: the result is a new, unbound pipeline whose
    single entry is a nested-pipeline dict that refers to the operand and
    carries the probability, or the repeat count. *)
Theorem compose_multi_wraps h P o :
  pipelines h !! P = Some o -> 2 <= length (_action_list o) ->
  (forall f i, int_of_float f = Ok i -> i ≠ 1%Z ->
     __matmul__ P (VFloat f) h
     = (Ok (length (pipelines h)),
        mkStore (actions h ++ [mkAction PIPELINE_ID [] [] (Some f) None (Some P) None])
                (pipelines h ++ [mkPipe None [length (actions h)]])))
  /\ (forall n, (0 <= n)%Z ->
     __mul__ P (VInt n) h
     = (Ok (length (pipelines h)),
        mkStore (actions h ++ [mkAction PIPELINE_ID [] [] None (Some n) (Some P) None])
                (pipelines h ++ [mkPipe None [length (actions h)]]))).
Proof.
  intros E L. split.
  - intros f i I N.
    assert (Lne : _action_list o ≠ []) by (destruct (_action_list o); cbn in L; [lia|done]).
    rewrite (matmul_float _ _ _ _ _ E Lne I).
    destruct (Z.eqb_spec i 1); [done|].
    apply (from_pipeline_proba_nested _ _ _ _ E). lia.
  - intros n N. rewrite mul_int by done.
    apply (from_pipeline_repeat_nested _ _ _ _ E). lia.
Qed.

(** ** Properties of the sequential executor *)

Lemma bind_assoc_run {S A B C} (m : ST S A) (k : A -> ST S B) (k' : B -> ST S C) s :
  (y ← (x ← m; k x); k' y) s = (x ← m; y ← k x; k' y) s.
Proof. rewrite !bind_run. by destruct (m s) as [[?|?] ?]. Qed.

Lemma bind_ext_run {S A B} (m : ST S A) (k k' : A -> ST S B) s :
  (forall a s', k a s' = k' a s') -> (x ← m; k x) s = (x ← m; k' x) s.
Proof. intros K. rewrite !bind_run. destruct (m s) as [[?|?] ?]; [apply K|done]. Qed.

Lemma ret_bind_run {S A B} (a : A) (k : A -> ST S B) s :
  (x ← mret a; k x) s = k a s.
Proof. reflexivity. Qed.

Lemma raise_bind_run {S A B} (e : exn) (k : A -> ST S B) s :
  (x ← raise e; k x) s = raise e s.
Proof. reflexivity. Qed.

Section ExecProperties.

Variable h : Store.
Variable exec_all : Batch -> list addr -> ST ExecSt Batch.

Definition is_join (a : addr) (sets : list Dataset) : Prop :=
  exists d, actions h !! a = Some d /\ a_name d = JOIN_ID /\ a_datasets d = Some sets.

Definition is_nested (a : addr) : Prop :=
  exists d, actions h !! a = Some d /\ a_name d = PIPELINE_ID.

Definition is_ordinary (a : addr) (d : Action) : Prop :=
  actions h !! a = Some d /\ a_name d ≠ JOIN_ID /\ a_name d ≠ PIPELINE_ID.

(** The positional arguments an ordinary entry is called with when [sets] are
    pending and [batch] is the current batch. *)
Definition joined_args (sets : list Dataset) (batch : Batch) (d : Action) : list Arg :=
  map (fun jset => ABatch (create_batch jset (index batch))) sets
  ++ map AVal (a_args d).

Lemma exec_loop_join js b a sets rest s :
  is_join a sets ->
  exec_loop h exec_all js b (a :: rest) s = exec_loop h exec_all (Some sets) b rest s.
Proof.
  intros (d & D & N & S). cbn [exec_loop]. rewrite D, N, S. done.
Qed.

Lemma exec_loop_nested js b a rest s :
  is_nested a ->
  exists d, actions h !! a = Some d /\
  exec_loop h exec_all js b (a :: rest) s
  = (b' ← _exec_nested_pipeline h exec_all b d; exec_loop h exec_all js b' rest) s.
Proof.
  intros (d & D & N). exists d. split; [done|]. cbn [exec_loop]. rewrite D, N. done.
Qed.

Lemma exec_loop_ordinary js b a d rest s :
  is_ordinary a d ->
  exec_loop h exec_all js b (a :: rest) s
  = (b' ← _exec_one_action b d
             (match js with
              | Some sets => joined_args sets b d
              | None => map AVal (a_args d)
              end) (a_kwargs d);
     exec_loop h exec_all None b' rest) s.
Proof.
  intros (D & N1 & N2). cbn [exec_loop]. rewrite D.
  apply String.eqb_neq in N1, N2. rewrite N1, N2. by destruct js.
Qed.

(** Running a list up to a join marker, then the rest with that marker's
    sources pending: what was pending before the marker is dropped. *)
Lemma exec_loop_join_split l1 : forall js b j sets l2 s,
  is_join j sets ->
  exec_loop h exec_all js b (l1 ++ j :: l2) s
  = (b0 ← exec_loop h exec_all js b l1; exec_loop h exec_all (Some sets) b0 l2) s.
Proof.
  induction l1 as [|a l1 IH]; intros js b j sets l2 s J.
  - cbn [app]. by rewrite (exec_loop_join _ _ _ sets) by done.
  - cbn [app exec_loop]. destruct (actions h !! a) as [d|]; [|done].
    destruct (String.eqb (a_name d) JOIN_ID).
    { destruct (a_datasets d); [by apply IH|done]. }
    destruct (String.eqb (a_name d) PIPELINE_ID).
    all: rewrite bind_assoc_run; apply bind_ext_run; intros; by apply IH.
Qed.

(** Nested-pipeline entries leave the pending sources as they are. *)
Lemma exec_loop_nested_split mid : forall js b l2 s,
  Forall is_nested mid ->
  exec_loop h exec_all js b (mid ++ l2) s
  = (b1 ← exec_loop h exec_all None b mid; exec_loop h exec_all js b1 l2) s.
Proof.
  induction mid as [|a mid IH]; intros js b l2 s F.
  - done.
  - apply Forall_cons in F as [(d & D & N) F]. cbn [app exec_loop].
    rewrite D, N. change (String.eqb PIPELINE_ID JOIN_ID) with false.
    change (String.eqb PIPELINE_ID PIPELINE_ID) with true. cbv iota.
    rewrite bind_assoc_run. apply bind_ext_run. intros. by apply IH.
Qed.

(** A join marker is consumed by the next ordinary entry. *)
Lemma join_then_ordinary js b l1 j sets mid a d rest s :
  is_join j sets -> Forall is_nested mid -> is_ordinary a d ->
  exec_loop h exec_all js b (l1 ++ j :: mid ++ a :: rest) s
  = (b0 ← exec_loop h exec_all js b l1;
     b1 ← exec_loop h exec_all None b0 mid;
     b2 ← _exec_one_action b1 d (joined_args sets b1 d) (a_kwargs d);
     exec_loop h exec_all None b2 rest) s.
Proof.
  intros J N O. rewrite (exec_loop_join_split _ _ _ _ sets) by done.
  apply bind_ext_run. intros b0 s0.
  rewrite exec_loop_nested_split by done.
  apply bind_ext_run. intros b1 s1. by rewrite (exec_loop_ordinary _ _ _ d).
Qed.

End ExecProperties.

(** Appending one entry: the dict is completed, the copy that holds it is
    returned, and [self] gets back the list it had. *)
Lemma push_append h P o d0 args kwargs :
  pipelines h !! P = Some o ->
  (_ ← push_action P d0; append_action P args kwargs) h
  = (Ok (length (pipelines h)),
     mkStore (actions h ++ [mkAction (a_name d0) args kwargs None None
                                     (a_pipeline d0) (a_datasets d0)])
             (pipelines h
              ++ [mkPipe (dataset o) (_action_list o ++ [length (actions h)])])).
Proof.
  intros E. pose proof (lookup_lt_Some _ _ _ E) as Hp.
  unfold push_action. st_run. rewrite (get_pipe_eq _ _ o) by done. st_run.
  set (o1 := mkPipe (dataset o) (_action_list o ++ [length (actions h)])).
  set (h1 := mkStore _ _).
  assert (F : pipelines h1 !! P = Some o1) by by apply list_lookup_insert_eq.
  assert (D : actions h1 !! length (actions h) = Some d0) by by apply list_lookup_middle.
  unfold append_action.
  rewrite bind_run, (last_action_eq _ _ o1 (length (actions h)) F) by apply last_snoc.
  rewrite bind_run, (get_action_eq _ _ d0 D). st_run.
  set (h2 := mkStore _ _).
  assert (F2 : pipelines h2 !! P = Some o1) by exact F.
  rewrite (from_pipeline_copy _ _ o1 F2). st_run.
  rewrite (get_pipe_eq _ _ o1) by (by apply lookup_app_l_Some).
  st_run. subst h2 h1 o1. cbn [pipelines actions _action_list dataset].
  unfold mret, ST_ret. rewrite length_insert. f_equal. f_equal.
  - by rewrite insert_app_r_alt, Nat.sub_diag by lia.
  - rewrite removelast_last.
    rewrite insert_app_l by (by rewrite length_insert).
    rewrite list_insert_insert_eq, list_insert_id; [done|]. by destruct o.
Qed.

Lemma join_eq h P o sets :
  pipelines h !! P = Some o ->
  join P sets h
  = (Ok (length (pipelines h)),
     mkStore (actions h ++ [mkAction JOIN_ID [] [] None None None (Some sets)])
             (pipelines h
              ++ [mkPipe (dataset o) (_action_list o ++ [length (actions h)])])).
Proof. apply push_append. Qed.

Lemma getattr_eq h P o name args kwargs :
  pipelines h !! P = Some o -> is_batch_method name = true ->
  __getattr__ P name args kwargs h
  = (Ok (length (pipelines h)),
     mkStore (actions h ++ [mkAction name args kwargs None None None None])
             (pipelines h
              ++ [mkPipe (dataset o) (_action_list o ++ [length (actions h)])])).
Proof. intros E B. unfold __getattr__. rewrite B. by apply push_append. Qed.

(** An entry without probability and without repeat count is one call. *)
Lemma exec_one_action_plain b d args kwargs s :
  a_proba d = None -> rounds (a_repeat d) = 1 ->
  _exec_one_action b d args kwargs s = invoke b (a_name d) args kwargs s.
Proof.
  intros Pn Rn. unfold _exec_one_action, _needs_exec. rewrite Pn, Rn.
  cbn [for_range]. rewrite ret_bind_run, bind_run.
  by destruct (invoke _ _ _ _ _) as [[?|?] ?].
Qed.

Lemma bind_ret_run {S A} (m : ST S A) s : (x ← m; mret x) s = m s.
Proof. rewrite bind_run. by destruct (m s) as [[?|?] ?]. Qed.

(** C3 on the code. [P * 0] on a single-action pipeline stores the repeat
    count 0 on the action, and [range(action['repeat'] or 1)] then makes one
    round: executing the result on a batch calls the action exactly once, and
    the batch returned is whatever that call returns; it is not the input
    batch left untouched. *)
Theorem repeat_zero_runs_once h P o a d :
  pipelines h !! P = Some o -> _action_list o = [a] -> actions h !! a = Some d ->
  a_proba d = None -> a_name d ≠ JOIN_ID -> a_name d ≠ PIPELINE_ID ->
  exists R h',
    __mul__ P (VInt 0) h = (Ok R, h')
    /\ (exists d', actions h' !! a = Some d' /\ a_repeat d' = Some 0%Z)
    /\ forall depth b s,
         _exec h' (S depth) R b s
         = invoke b (a_name d) (map AVal (a_args d)) (a_kwargs d) s.
Proof.
  intros E L D Pn N1 N2. pose proof (lookup_lt_Some _ _ _ D) as Ha.
  set (d' := with_repeat d (mult_option Z.mul (Some 0%Z) (a_repeat d))).
  assert (R0 : a_repeat d' = Some 0%Z) by (subst d'; cbn; by destruct (a_repeat d)).
  eexists _, _. split.
  { rewrite mul_int by done. by apply (from_pipeline_repeat_single _ _ _ _ _ _ E L D). }
  fold d'. set (h' := mkStore _ _).
  assert (D' : actions h' !! a = Some d') by by apply list_lookup_insert_eq.
  split; [by exists d'|]. intros depth b s.
  unfold _exec. cbn [_exec_all_actions].
  replace (pipelines h' !! length (pipelines h))
    with (Some (mkPipe (dataset o) [a])) by (symmetry; apply lookup_new_pipe).
  cbn [_action_list].
  rewrite (exec_loop_ordinary _ _ _ _ _ d') by done.
  rewrite bind_run, exec_one_action_plain by (done || by rewrite R0).
  change (a_name d') with (a_name d). change (a_args d') with (a_args d).
  change (a_kwargs d') with (a_kwargs d).
  by destruct (invoke _ _ _ _ _) as [[?|?] ?].
Qed.

(** C8. Along an action list, a join marker is consumed by the next ordinary
    entry, with only nested-pipeline entries in between: whatever ran before
    the marker leaves batch [b0], the nested entries turn it into [b1] without
    touching the pending sources, and the ordinary entry is then executed with
    one batch per joined source, created over the index of [b1], in source
    order, in front of its own positional arguments; what follows runs with
    nothing pending. In particular, after [join(P, X)] and an appended action
    [name], executing the result ends with the call of [name] on the current
    batch with the batch from [X] in front of the recorded arguments. *)
Theorem join_feeds_next_action :
  (forall h exec_all js b l1 j sets mid a d rest s,
      is_join h j sets -> Forall (is_nested h) mid -> is_ordinary h a d ->
      exec_loop h exec_all js b (l1 ++ j :: mid ++ a :: rest) s
      = (b0 ← exec_loop h exec_all js b l1;
         b1 ← exec_loop h exec_all None b0 mid;
         b2 ← _exec_one_action b1 d (joined_args sets b1 d) (a_kwargs d);
         exec_loop h exec_all None b2 rest) s)
  /\ (forall h P o X name args kwargs,
      pipelines h !! P = Some o -> is_batch_method name = true ->
      name ≠ JOIN_ID -> name ≠ PIPELINE_ID ->
      exists J R h1 h2,
        join P [X] h = (Ok J, h1)
        /\ __getattr__ J name args kwargs h1 = (Ok R, h2)
        /\ forall depth b s,
             _exec h2 (S depth) R b s
             = (b0 ← exec_loop h2 (_exec_all_actions h2 depth R) None b (_action_list o);
                invoke b0 name
                  (ABatch (create_batch X (index b0)) :: map AVal args) kwargs) s).
Proof.
  split; [intros; by apply join_then_ordinary|].
  intros h P o X name args kwargs E B N1 N2.
  eexists _, _, _, _. split; [by apply join_eq|].
  set (h1 := mkStore _ _).
  set (oj := mkPipe (dataset o) (_action_list o ++ [length (actions h)])).
  assert (EJ : pipelines h1 !! length (pipelines h) = Some oj) by apply lookup_new_pipe.
  split; [by apply (getattr_eq _ _ oj)|].
  set (h2 := mkStore _ _). intros depth b s.
  set (j := length (actions h)). set (c := length (actions h1)).
  set (dc := mkAction name args kwargs None None None None).
  assert (Hj : is_join h2 j [X]).
  { exists (mkAction JOIN_ID [] [] None None None (Some [X])).
    split; [|done]. subst h2 h1. cbn [actions].
    apply lookup_app_l_Some. by apply list_lookup_middle. }
  assert (Hc : is_ordinary h2 c dc).
  { split; [|done]. subst h2. cbn [actions]. by apply list_lookup_middle. }
  unfold _exec. cbn [_exec_all_actions].
  replace (pipelines h2 !! length (pipelines h1))
    with (Some (mkPipe (dataset oj) (_action_list oj ++ [c])))
    by (symmetry; apply lookup_new_pipe).
  subst oj. cbn [_action_list dataset]. rewrite <- app_assoc. cbn [app]. fold j.
  rewrite (join_then_ordinary h2 _ None b (_action_list o) j [X] [] c dc [] s)
    by done.
  apply bind_ext_run. intros b0 s0. cbn [app exec_loop].
  rewrite ret_bind_run, bind_run, exec_one_action_plain by done.
  by destruct (invoke _ _ _ _ _) as [[?|?] ?].
Qed.

End Pipeline.

(** ** The prefetch engine

    [gen_batch] with [prefetch > 0] starts two service threads,
    [_put_batches_into_queue] (the producer) and [_run_batches_from_queue]
    (the consumer), and then loops itself (the generator, driven by a caller
    that keeps asking for the next batch, as [run] does). The three threads
    meet at three bounded queues; the tasks submitted to the worker pool
    finish whenever a worker gets to them. The model is the interleaving of
    these threads: a state, and one step function per thread that performs
    the thread's next queue operation, or is undefined while that operation
    blocks. *)

Section Engine.

Context {Batch : Type}.

(** [self._exec(batch, new_loop=True)] on one batch of the source, for a
    deterministic action chain: the resulting batch, or the exception. *)
Variable exec : Batch -> result Batch.

(** [batch_res is None] for what a chain returns: the last action of a chain
    may return nothing, and None is then the result. *)
Variable is_none : Batch -> bool.

(** *** Without prefetch *)

(** The [else] branch of [gen_batch]: the batches yielded, and the exception
    that ended the iteration, if any. *)
Fixpoint gen_batch_inline (gen : list Batch) : list Batch * option exn :=
  match gen with
  | [] => ([], None)
  | b :: g =>
      match exec b with
      | Ok batch_res =>
          let '(out, e) := gen_batch_inline g in (batch_res :: out, e)
      | Raise SkipBatchException => gen_batch_inline g
      | Raise e => ([], Some e)
      end
  end.

(** *** With prefetch: the state *)

(** A task submitted to the pool: [self._executor.submit(self._exec, batch)]. *)
Record Future := mkFuture {
  f_id : nat;
  f_batch : Batch;
}.

Inductive target_kind := Threads | Processes.

Record Executor := mkExecutor {
  kind : target_kind;
  max_workers : nat;
}.

(** The statement each thread is about to execute. *)
Inductive producer_pc :=
| PLoop               (* [while not self._stop_flag] *)
| PToken              (* [self._prefetch_count.put(1, block=True)] *)
| PNext               (* [batch = next(gen_batch)] and the submit *)
| PPut (f : Future)   (* [self._prefetch_queue.put(future, block=True)] *)
| PSentinel           (* [self._prefetch_queue.put(None, block=True)] *)
| PDone.

Inductive consumer_pc :=
| CLoop               (* [while not self._stop_flag] *)
| CGet                (* [future = self._prefetch_queue.get(block=True)] *)
| CSentinel           (* [self._batch_queue.put(None)] *)
| CResult (f : Future) (* [batch = future.result()] and its handlers *)
| CFinally            (* the [finally] clause *)
| CDone
| CCrashed (e : exn).

Inductive main_pc :=
| MLoop               (* [while not self._stop_flag] *)
| MGet                (* [batch_res = self._batch_queue.get(block=True)] *)
| MToken              (* [self._prefetch_count.get(block=True)], after the yield *)
| MReset              (* [self.reset_iter()] *)
| MDone.

Record Run := mkRun {
  stop_flag : bool;  (* [self._stop_flag] *)
  source : list Batch;  (* what [batch_generator] will still produce *)
  running : list nat;  (* ids of the submitted tasks that have not finished *)
  submitted : nat;  (* number of tasks submitted so far *)
  prefetch_count : nat;  (* tokens in [self._prefetch_count] *)
  prefetch_queue : list (option Future);  (* [self._prefetch_queue]; [None] is the sentinel *)
  batch_queue : list (option Batch);  (* [self._batch_queue]; [None] is the sentinel *)
  producer : producer_pc;  (* where the producer stands *)
  consumer : consumer_pc;  (* where the consumer stands *)
  skip_batch : bool;  (* the consumer's local [skip_batch] *)
  batch : option Batch;  (* the consumer's local [batch]; [None] while unbound *)
  main : main_pc;  (* where the generator stands *)
  yielded : list Batch;  (* the batches yielded to the caller so far *)
  depth : nat;  (* [prefetch] after the clamp *)
  pool : Executor;  (* [self._executor] *)
}.

Definition set_stop_flag (v : bool) (s : Run) : Run :=
  mkRun v (source s) (running s) (submitted s) (prefetch_count s) (prefetch_queue s)
      (batch_queue s) (producer s) (consumer s) (skip_batch s) (batch s) (main s)
      (yielded s) (depth s) (pool s).

Definition set_source (v : list Batch) (s : Run) : Run :=
  mkRun (stop_flag s) v (running s) (submitted s) (prefetch_count s) (prefetch_queue s)
      (batch_queue s) (producer s) (consumer s) (skip_batch s) (batch s) (main s)
      (yielded s) (depth s) (pool s).

Definition set_running (v : list nat) (s : Run) : Run :=
  mkRun (stop_flag s) (source s) v (submitted s) (prefetch_count s) (prefetch_queue s)
      (batch_queue s) (producer s) (consumer s) (skip_batch s) (batch s) (main s)
      (yielded s) (depth s) (pool s).

Definition set_submitted (v : nat) (s : Run) : Run :=
  mkRun (stop_flag s) (source s) (running s) v (prefetch_count s) (prefetch_queue s)
      (batch_queue s) (producer s) (consumer s) (skip_batch s) (batch s) (main s)
      (yielded s) (depth s) (pool s).

Definition set_prefetch_count (v : nat) (s : Run) : Run :=
  mkRun (stop_flag s) (source s) (running s) (submitted s) v (prefetch_queue s)
      (batch_queue s) (producer s) (consumer s) (skip_batch s) (batch s) (main s)
      (yielded s) (depth s) (pool s).

Definition set_prefetch_queue (v : list (option Future)) (s : Run) : Run :=
  mkRun (stop_flag s) (source s) (running s) (submitted s) (prefetch_count s) v
      (batch_queue s) (producer s) (consumer s) (skip_batch s) (batch s) (main s)
      (yielded s) (depth s) (pool s).

Definition set_batch_queue (v : list (option Batch)) (s : Run) : Run :=
  mkRun (stop_flag s) (source s) (running s) (submitted s) (prefetch_count s)
      (prefetch_queue s) v (producer s) (consumer s) (skip_batch s) (batch s) (main s)
      (yielded s) (depth s) (pool s).

Definition set_producer (v : producer_pc) (s : Run) : Run :=
  mkRun (stop_flag s) (source s) (running s) (submitted s) (prefetch_count s)
      (prefetch_queue s) (batch_queue s) v (consumer s) (skip_batch s) (batch s)
      (main s) (yielded s) (depth s) (pool s).

Definition set_consumer (v : consumer_pc) (s : Run) : Run :=
  mkRun (stop_flag s) (source s) (running s) (submitted s) (prefetch_count s)
      (prefetch_queue s) (batch_queue s) (producer s) v (skip_batch s) (batch s)
      (main s) (yielded s) (depth s) (pool s).

Definition set_skip_batch (v : bool) (s : Run) : Run :=
  mkRun (stop_flag s) (source s) (running s) (submitted s) (prefetch_count s)
      (prefetch_queue s) (batch_queue s) (producer s) (consumer s) v (batch s) (main s)
      (yielded s) (depth s) (pool s).

Definition set_batch (v : option Batch) (s : Run) : Run :=
  mkRun (stop_flag s) (source s) (running s) (submitted s) (prefetch_count s)
      (prefetch_queue s) (batch_queue s) (producer s) (consumer s) (skip_batch s) v
      (main s) (yielded s) (depth s) (pool s).

Definition set_main (v : main_pc) (s : Run) : Run :=
  mkRun (stop_flag s) (source s) (running s) (submitted s) (prefetch_count s)
      (prefetch_queue s) (batch_queue s) (producer s) (consumer s) (skip_batch s)
      (batch s) v (yielded s) (depth s) (pool s).

Definition set_yielded (v : list Batch) (s : Run) : Run :=
  mkRun (stop_flag s) (source s) (running s) (submitted s) (prefetch_count s)
      (prefetch_queue s) (batch_queue s) (producer s) (consumer s) (skip_batch s)
      (batch s) (main s) v (depth s) (pool s).

(** [gen_batch] up to the start of the service threads, for [prefetch > 0]:
    the clamp, the pool, the queues. *)
Definition gen_batch_prefetch (prefetch : nat) (target : string)
    (gen : list Batch) : result Run :=
  let prefetch := Nat.min prefetch 62 in
  let fresh executor :=
    mkRun false gen [] 0 0 [] [] PLoop CLoop false None MLoop [] prefetch executor in
  if String.eqb target "threads" then
    Ok (fresh (mkExecutor Threads (prefetch + 1)))
  else if String.eqb target "mpc" then
    Ok (fresh (mkExecutor Processes (prefetch + 1)))
  else Raise ValueError.

(** Capacities of [_prefetch_count], [_prefetch_queue] and [_batch_queue]. *)
Definition count_maxsize (s : Run) : nat := depth s + 1.
Definition queue_maxsize (s : Run) : nat := depth s.
Definition batch_maxsize : nat := 1.

(** *** With prefetch: the steps *)

(** [_put_batches_into_queue] *)
Definition step_producer (s : Run) : option Run :=
  match producer s with
  | PLoop =>
      Some (set_producer (if stop_flag s then PSentinel else PToken) s)
  | PToken =>
      if prefetch_count s <? count_maxsize s
      then Some (set_producer PNext (set_prefetch_count (S (prefetch_count s)) s))
      else None
  | PNext =>
      match source s with
      | [] => Some (set_producer PSentinel s)
      | b :: g =>
          let future := mkFuture (submitted s) b in
          Some (set_producer (PPut future)
                  (set_running (running s ++ [submitted s])
                     (set_submitted (S (submitted s)) (set_source g s))))
      end
  | PPut future =>
      if length (prefetch_queue s) <? queue_maxsize s
      then Some (set_producer PLoop
                   (set_prefetch_queue (prefetch_queue s ++ [Some future]) s))
      else None
  | PSentinel =>
      if length (prefetch_queue s) <? queue_maxsize s
      then Some (set_producer PDone
                   (set_prefetch_queue (prefetch_queue s ++ [None]) s))
      else None
  | PDone => None
  end.

(** A worker finishes task [id]. *)
Definition step_worker (id : nat) (s : Run) : option Run :=
  if bool_decide (id ∈ running s)
  then Some (set_running (filter (fun i => i ≠ id) (running s)) s)
  else None.

(** [_run_batches_from_queue] *)
Definition step_consumer (s : Run) : option Run :=
  match consumer s with
  | CLoop =>
      Some (set_consumer (if stop_flag s then CDone else CGet) s)
  | CGet =>
      match prefetch_queue s with
      | [] => None
      | None :: q => Some (set_consumer CSentinel (set_prefetch_queue q s))
      | Some future :: q =>
          Some (set_consumer (CResult future) (set_prefetch_queue q s))
      end
  | CSentinel =>
      if length (batch_queue s) <? batch_maxsize
      then Some (set_consumer CDone (set_batch_queue (batch_queue s ++ [None]) s))
      else None
  | CResult future =>
      if bool_decide (f_id future ∈ running s) then None
      else
        match exec (f_batch future) with
        | Ok b => Some (set_consumer CFinally (set_batch (Some b) s))
        | Raise SkipBatchException =>
            Some (set_consumer CFinally (set_skip_batch true s))
        | Raise _ => Some (set_consumer CFinally s)
        end
  | CFinally =>
      if skip_batch s then Some (set_consumer CLoop s)
      else
        match batch s with
        | None => Some (set_consumer (CCrashed UnboundLocalError) s)
        | Some b =>
            if length (batch_queue s) <? batch_maxsize
            then Some (set_consumer CLoop
                         (set_skip_batch false
                            (set_batch_queue (batch_queue s ++ [Some b]) s)))
            else None
        end
  | CDone | CCrashed _ => None
  end.

(** The service threads have returned (what both [shutdown] calls of
    [reset_iter] wait for). *)
Definition services_returned (s : Run) : bool :=
  match producer s, consumer s with
  | PDone, (CDone | CCrashed _) => true
  | _, _ => false
  end.

(** The generator [gen_batch], resumed by its caller after every yield. What
    it takes from [_batch_queue] is tested with [is not None], whether the
    consumer put it as the sentinel or as the result of a batch. *)
Definition step_main (s : Run) : option Run :=
  match main s with
  | MLoop => Some (set_main (if stop_flag s then MReset else MGet) s)
  | MGet =>
      match batch_queue s with
      | [] => None
      | Some batch_res :: q =>
          if is_none batch_res
          then Some (set_main MLoop (set_stop_flag true (set_batch_queue q s)))
          else Some (set_main MToken
                       (set_yielded (yielded s ++ [batch_res])
                          (set_batch_queue q s)))
      | None :: q => Some (set_main MLoop (set_stop_flag true (set_batch_queue q s)))
      end
  | MToken =>
      match prefetch_count s with
      | O => None
      | S n => Some (set_main MLoop (set_prefetch_count n s))
      end
  | MReset =>
      if services_returned s && bool_decide (running s = [])
      then Some (set_main MDone
                   (set_stop_flag true
                      (set_prefetch_queue []
                         (set_batch_queue [] (set_prefetch_count 0 s)))))
      else None
  | MDone => None
  end.

Inductive thread :=
| Producer
| Consumer
| Main
| Worker (id : nat).

Definition step (t : thread) (s : Run) : option Run :=
  match t with
  | Producer => step_producer s
  | Consumer => step_consumer s
  | Main => step_main s
  | Worker id => step_worker id s
  end.

(** A schedule: which thread moves, step after step. *)
Fixpoint run (sched : list thread) (s : Run) : option Run :=
  match sched with
  | [] => Some s
  | t :: sched' =>
      match step t s with
      | Some s' => run sched' s'
      | None => None
      end
  end.

(** No thread can move. *)
Definition stuck (s : Run) : Prop := forall t, step t s = None.

(** *** Every schedule is finite

    A potential that every step lowers: what each thread still has to do
    before it returns, plus what the queues and the source will still make the
    threads do. *)

Definition rank_producer (pc : producer_pc) : nat :=
  match pc with
  | PLoop => 7 | PToken => 6 | PNext => 5 | PPut _ => 15 | PSentinel => 4 | PDone => 0
  end.

Definition rank_consumer (pc : consumer_pc) : nat :=
  match pc with
  | CLoop => 2 | CGet => 1 | CSentinel => 3 | CResult _ => 7 | CFinally => 6
  | CDone | CCrashed _ => 0
  end.

Definition rank_main (pc : main_pc) : nat :=
  match pc with
  | MLoop => 3 | MGet => 2 | MToken => 4 | MReset => 1 | MDone => 0
  end.

Fixpoint weight {A} (some none : nat) (q : list (option A)) : nat :=
  match q with
  | [] => 0
  | Some _ :: q' => some + weight some none q'
  | None :: q' => none + weight some none q'
  end.

Definition potential (s : Run) : nat :=
  12 * length (source s) + length (running s)
  + rank_producer (producer s) + weight 7 3 (prefetch_queue s)
  + rank_consumer (consumer s) + weight 3 2 (batch_queue s)
  + rank_main (main s).

Lemma weight_app {A} some none (q1 q2 : list (option A)) :
  weight some none (q1 ++ q2) = weight some none q1 + weight some none q2.
Proof. induction q1 as [|[?|] q1 IH]; cbn; lia. Qed.

Lemma filter_ne_length (id : nat) (l : list nat) :
  id ∈ l -> length (filter (fun i => i ≠ id) l) < length l.
Proof.
  induction l as [|x l IH]; intros I; [by apply not_elem_of_nil in I|].
  rewrite filter_cons. apply elem_of_cons in I. cbn [length].
  pose proof (length_filter (fun i => i ≠ id) l).
  destruct (decide (x ≠ id)) as [N|N]; cbn [length].
  - destruct I as [->|I]; [done|]. specialize (IH I). lia.
  - lia.
Qed.

Lemma step_decreases t s s' : step t s = Some s' -> potential s' < potential s.
Proof.
  destruct s as [stop src rn sub cnt fq bq p c skip b m out d pl].
  unfold potential. destruct t as [| | |id]; cbn [step].
  - unfold step_producer; cbn.
    destruct p; cbn; intros E; repeat case_match; simplify_eq; cbn;
      rewrite ?weight_app, ?length_app; cbn; lia.
  - unfold step_consumer; cbn.
    destruct c; cbn; intros E; repeat case_match; simplify_eq; cbn;
      rewrite ?weight_app; cbn; lia.
  - unfold step_main; cbn.
    destruct m; cbn; intros E; repeat case_match; simplify_eq; cbn; lia.
  - unfold step_worker; cbn. case_bool_decide as I; [|done].
    intros [= <-]. cbn. pose proof (filter_ne_length _ _ I). lia.
Qed.

Lemma run_potential sched : forall s s',
  run sched s = Some s' -> length sched + potential s' <= potential s.
Proof.
  induction sched as [|t sched IH]; intros s s' R; cbn in R.
  - simplify_eq. cbn. lia.
  - destruct (step t s) as [s1|] eqn:E; [|done].
    apply step_decreases in E. apply IH in R. cbn [length]. lia.
Qed.

(** *** What a run can deliver

    The consumer handles the tasks in the order of the queue, whatever the
    order in which the workers finish them. [consume] is its loop run on a
    list of task outcomes, from given values of its locals [skip_batch] and
    [batch]: the batches it puts into the delivery queue. *)

Fixpoint consume (skip : bool) (batch : option Batch)
    (rs : list (result Batch)) : list Batch :=
  match rs with
  | [] => []
  | r :: rs' =>
      let skip1 := match r with Raise SkipBatchException => true | _ => skip end in
      let batch1 := match r with Ok b => Some b | _ => batch end in
      if skip1 then consume true batch1 rs'
      else
        match batch1 with
        | None => []
        | Some b => b :: consume false batch1 rs'
        end
  end.

(** The outcomes still ahead of the consumer: those the producer will still
    submit, behind those already queued (up to a sentinel). *)
Definition producer_rest (pc : producer_pc) (stop : bool) (src : list Batch)
    : list (result Batch) :=
  match pc with
  | PLoop => if stop then [] else map exec src
  | PToken | PNext => map exec src
  | PPut f => exec (f_batch f) :: map exec src
  | PSentinel | PDone => []
  end.

Fixpoint queue_rest (q : list (option Future)) (k : list (result Batch))
    : list (result Batch) :=
  match q with
  | [] => k
  | Some f :: q' => exec (f_batch f) :: queue_rest q' k
  | None :: _ => []
  end.

(** The batches the consumer will still put, given the outcomes ahead. *)
Definition consumer_plan (pc : consumer_pc) (stop skip : bool)
    (batch : option Batch) (rs : list (result Batch)) : list Batch :=
  match pc with
  | CLoop => if stop then [] else consume skip batch rs
  | CGet => consume skip batch rs
  | CResult f => consume skip batch (exec (f_batch f) :: rs)
  | CFinally =>
      if skip then consume true batch rs
      else
        match batch with
        | None => []
        | Some b => b :: consume false batch rs
        end
  | CSentinel | CDone | CCrashed _ => []
  end.

Fixpoint queue_plan (q : list (option Batch)) (k : list Batch) : list Batch :=
  match q with
  | [] => k
  | Some b :: q' => b :: queue_plan q' k
  | None :: _ => []
  end.

(** What the generator has yielded, and what it can still take. *)
Definition main_plan (pc : main_pc) (stop : bool) (out ahead : list Batch)
    : list Batch :=
  match pc with
  | MLoop => if stop then out else out ++ ahead
  | MGet | MToken => out ++ ahead
  | MReset | MDone => out
  end.

(** Everything the generator has yielded or can still yield. *)
Definition plan (s : Run) : list Batch :=
  main_plan (main s) (stop_flag s) (yielded s)
    (queue_plan (batch_queue s)
       (consumer_plan (consumer s) (stop_flag s) (skip_batch s) (batch s)
          (queue_rest (prefetch_queue s)
             (producer_rest (producer s) (stop_flag s) (source s))))).

Lemma consume_prefix rs1 : forall skip batch rs2,
  rs1 `prefix_of` rs2 -> consume skip batch rs1 `prefix_of` consume skip batch rs2.
Proof.
  induction rs1 as [|r rs1 IH]; intros skip batch rs2 [k ->]; [apply prefix_nil|].
  cbn. repeat case_match; try apply prefix_nil; try apply prefix_cons;
    apply IH, prefix_app_r; done.
Qed.

Lemma queue_rest_prefix q k1 k2 :
  k1 `prefix_of` k2 -> queue_rest q k1 `prefix_of` queue_rest q k2.
Proof.
  intros K. induction q as [|[f|] q IH]; cbn; [done|by apply prefix_cons|done].
Qed.

Lemma queue_rest_snoc q f k :
  queue_rest (q ++ [Some f]) k = queue_rest q (exec (f_batch f) :: k).
Proof. induction q as [|[?|] q IH]; cbn; by rewrite ?IH. Qed.

Lemma queue_rest_sentinel q k : queue_rest (q ++ [None]) k = queue_rest q [].
Proof. induction q as [|[?|] q IH]; cbn; by rewrite ?IH. Qed.

Lemma queue_plan_prefix q k1 k2 :
  k1 `prefix_of` k2 -> queue_plan q k1 `prefix_of` queue_plan q k2.
Proof.
  intros K. induction q as [|[f|] q IH]; cbn; [done|by apply prefix_cons|done].
Qed.

Lemma queue_plan_snoc q b k : queue_plan (q ++ [Some b]) k = queue_plan q (b :: k).
Proof. induction q as [|[?|] q IH]; cbn; by rewrite ?IH. Qed.

Lemma queue_plan_sentinel q k : queue_plan (q ++ [None]) k = queue_plan q [].
Proof. induction q as [|[?|] q IH]; cbn; by rewrite ?IH. Qed.

Lemma prefix_app_same {A} (l k1 k2 : list A) :
  k1 `prefix_of` k2 -> l ++ k1 `prefix_of` l ++ k2.
Proof. apply prefix_app. Qed.

Lemma prefix_self_app {A} (l k : list A) : l `prefix_of` l ++ k.
Proof. by apply prefix_app_r. Qed.

Lemma main_plan_prefix pc stop out k1 k2 :
  k1 `prefix_of` k2 -> main_plan pc stop out k1 `prefix_of` main_plan pc stop out k2.
Proof. intros K. destruct pc, stop; try done; by apply prefix_app. Qed.

Lemma consumer_plan_prefix pc stop skip batch rs1 rs2 :
  rs1 `prefix_of` rs2 ->
  consumer_plan pc stop skip batch rs1 `prefix_of` consumer_plan pc stop skip batch rs2.
Proof.
  intros K. destruct pc; cbn -[consume]; repeat case_match; try done;
    try apply prefix_cons; apply consume_prefix;
    first [done | by apply prefix_cons].
Qed.

(** No step adds to what the run can deliver. *)
Lemma step_plan t s s' : step t s = Some s' -> plan s' `prefix_of` plan s.
Proof.
  destruct s as [stop src rn sub cnt fq bq p c skip b m out d pl].
  unfold plan. destruct t as [| | |id]; cbn [step].
  - unfold step_producer; cbn. intros E.
    destruct p; repeat case_match; simplify_eq; cbn -[main_plan consumer_plan];
      apply main_plan_prefix, queue_plan_prefix, consumer_plan_prefix;
      rewrite ?queue_rest_snoc, ?queue_rest_sentinel;
      apply queue_rest_prefix; cbn;
      try done; try apply prefix_cons; try apply prefix_nil; try done;
      (destruct stop; [apply prefix_nil|done]).
  - unfold step_consumer; cbn. intros E.
    destruct c; repeat case_match; simplify_eq; cbn -[main_plan];
      rewrite ?queue_plan_snoc, ?queue_plan_sentinel;
      apply main_plan_prefix, queue_plan_prefix; cbn;
      repeat match goal with H : exec _ = _ |- _ => rewrite H; clear H end;
      try done; try apply prefix_nil; try apply prefix_cons;
      try done; try apply prefix_nil;
      (destruct stop; [apply prefix_nil|done]).
  - unfold step_main; cbn. intros E.
    destruct m; repeat case_match; simplify_eq; cbn;
      rewrite <- ?app_assoc; cbn;
      try done; try apply prefix_self_app;
      (destruct stop; [apply prefix_self_app|done]).
  - unfold step_worker; cbn. case_bool_decide; [|done]. by intros [= <-].
Qed.

Lemma run_plan sched : forall s s',
  run sched s = Some s' -> plan s' `prefix_of` plan s.
Proof.
  induction sched as [|t sched IH]; intros s s' R; cbn in R.
  - by simplify_eq.
  - destruct (step t s) as [s1|] eqn:E; [|done].
    etrans; [by apply IH|by eapply step_plan].
Qed.

Lemma yielded_plan s : yielded s `prefix_of` plan s.
Proof. unfold plan, main_plan. repeat case_match; try done; apply prefix_self_app. Qed.

(** *** Runs in which every batch executes successfully *)

(** The batch [_exec] returns on [b], when it returns one. *)
Definition res (b : Batch) : Batch :=
  match exec b with
  | Ok r => r
  | Raise _ => b
  end.

Definition succeeds (b : Batch) : Prop := exists r, exec b = Ok r.

(** Number of sentinels in a queue, and whether a sentinel can only be its
    last entry. *)
Fixpoint nsent {A} (q : list (option A)) : nat :=
  match q with
  | [] => 0
  | Some _ :: q' => nsent q'
  | None :: q' => S (nsent q')
  end.

Fixpoint sentinel_last {A} (q : list (option A)) : Prop :=
  match q with
  | [] => True
  | Some _ :: q' => sentinel_last q'
  | None :: q' => q' = []
  end.

(** The entries of a queue that are not the sentinel. *)
Definition entries {A} (q : list (option A)) : list A := omap id q.

(** The batches a thread holds outside the queues, as results for the
    consumer. *)
Definition held_producer (pc : producer_pc) : list Batch :=
  match pc with
  | PPut f => [f_batch f]
  | _ => []
  end.

Definition held_consumer (pc : consumer_pc) (batch : option Batch) : list Batch :=
  match pc with
  | CResult f => [res (f_batch f)]
  | CFinally => match batch with Some b => [b] | None => [] end
  | _ => []
  end.

(** The admission tokens a thread accounts for. *)
Definition token_producer (pc : producer_pc) : nat :=
  match pc with
  | PNext | PPut _ | PSentinel | PDone => 1
  | PLoop | PToken => 0
  end.

Definition token_consumer (pc : consumer_pc) : nat :=
  match pc with
  | CResult _ | CFinally => 1
  | _ => 0
  end.

Definition token_main (pc : main_pc) : nat :=
  match pc with
  | MToken => 1
  | _ => 0
  end.

Definition looping_consumer (pc : consumer_pc) : Prop :=
  match pc with
  | CLoop | CGet | CResult _ | CFinally => True
  | _ => False
  end.

Definition looping_main (pc : main_pc) : Prop :=
  match pc with
  | MLoop | MGet | MToken => True
  | _ => False
  end.

(** Where the sentinel is on its way from the producer to the generator. *)
Inductive stage := NotYet | InTasks | AtConsumer | InDelivery | Taken.

Definition stage_ok (st : stage) (s : Run) : Prop :=
  match st with
  | NotYet =>
      producer s ≠ PDone /\ (producer s = PSentinel -> source s = [])
      /\ nsent (prefetch_queue s) = 0 /\ looping_consumer (consumer s)
      /\ nsent (batch_queue s) = 0 /\ stop_flag s = false /\ looping_main (main s)
  | InTasks =>
      producer s = PDone /\ source s = []
      /\ nsent (prefetch_queue s) = 1 /\ sentinel_last (prefetch_queue s)
      /\ looping_consumer (consumer s)
      /\ nsent (batch_queue s) = 0 /\ stop_flag s = false /\ looping_main (main s)
  | AtConsumer =>
      producer s = PDone /\ source s = []
      /\ prefetch_queue s = [] /\ consumer s = CSentinel
      /\ nsent (batch_queue s) = 0 /\ stop_flag s = false /\ looping_main (main s)
  | InDelivery =>
      producer s = PDone /\ source s = []
      /\ prefetch_queue s = [] /\ consumer s = CDone
      /\ nsent (batch_queue s) = 1 /\ sentinel_last (batch_queue s)
      /\ stop_flag s = false /\ looping_main (main s)
  | Taken =>
      producer s = PDone /\ source s = []
      /\ prefetch_queue s = [] /\ consumer s = CDone
      /\ batch_queue s = [] /\ stop_flag s = true
      /\ (main s = MLoop \/ main s = MReset)
  end.

(** The invariant of a run whose batches all execute successfully and are to
    come out as [expected]. *)
Record live (expected : list Batch) (s : Run) : Prop := mkLive {
  live_depth : 0 < depth s;
  live_skip : skip_batch s = false;
  live_exact :
    yielded s ++ entries (batch_queue s)
    ++ held_consumer (consumer s) (batch s)
    ++ map res (map f_batch (entries (prefetch_queue s))
                ++ held_producer (producer s) ++ source s)
    = expected;
  live_ok :
    Forall succeeds (map f_batch (entries (prefetch_queue s))
                     ++ held_producer (producer s) ++ source s)
    /\ (forall f, consumer s = CResult f -> succeeds (f_batch f));
  live_tokens :
    prefetch_count s
    = length (entries (prefetch_queue s)) + token_producer (producer s)
      + token_consumer (consumer s) + length (entries (batch_queue s))
      + token_main (main s);
  live_finally : consumer s = CFinally -> is_Some (batch s);
  live_stage : exists st, stage_ok st s;
}.

Definition invariant (expected : list Batch) (s : Run) : Prop :=
  (main s = MDone /\ yielded s = expected) \/ (main s ≠ MDone /\ live expected s).

Lemma nsent_app {A} (q1 q2 : list (option A)) : nsent (q1 ++ q2) = nsent q1 + nsent q2.
Proof. induction q1 as [|[?|] q1 IH]; cbn; lia. Qed.

Lemma sentinel_last_snoc {A} (q : list (option A)) x :
  nsent q = 0 -> sentinel_last (q ++ [x]).
Proof. induction q as [|[?|] q IH]; cbn; [by destruct x|done|done]. Qed.

Lemma res_ok b r : exec b = Ok r -> res b = r.
Proof. unfold res. by intros ->. Qed.

(** The fields of [live] with the state taken apart. *)
Ltac live_intro :=
  match goal with
  | |- live _ ?s -> _ =>
      let Hd := fresh "Hd" in let Hs := fresh "Hs" in let Hx := fresh "Hx" in
      let Hok := fresh "Hok" in let Hokc := fresh "Hokc" in
      let Ht := fresh "Ht" in let Hf := fresh "Hf" in
      let st := fresh "st" in let Hst := fresh "Hst" in
      intros [Hd Hs Hx [Hok Hokc] Ht Hf [st Hst]];
      unfold entries in *; cbn in Hd, Hs, Hx, Hok, Hokc, Ht, Hf;
      rewrite ?Forall_app, ?Forall_cons in Hok
  end.

Ltac norm :=
  unfold entries; cbn;
  rewrite ?nsent_app, ?omap_app, ?map_app, ?length_app;
  cbn; rewrite <- ?app_assoc; cbn;
  rewrite ?Forall_app, ?Forall_cons, ?Forall_nil.

Ltac stage_cases st Hst :=
  destruct st; cbn in Hst; destruct_and?; simplify_eq; try done.

Ltac close :=
  cbn in *;
  repeat match goal with
         | H : Forall _ (_ :: _) |- _ => rewrite Forall_cons in H
         | H : Forall _ (_ ++ _) |- _ => rewrite Forall_app in H
         end;
  first [ done | lia | tauto | by apply sentinel_last_snoc
        | by (split_and?; intros; simplify_eq; tauto) ].

Ltac stage st := exists st; norm; split_and?; close.

Lemma live_step_producer expected s s' :
  live expected s -> main s ≠ MDone -> step_producer s = Some s' ->
  main s' ≠ MDone /\ live expected s'.
Proof.
  destruct s as [stop src rn sub cnt fq bq p c skip b m out d pl].
  live_intro. intros Hm E. unfold step_producer in E; cbn in E.
  destruct p; repeat case_match; simplify_eq; (split; [done|]);
    stage_cases st Hst.
  all: split; norm; try close.
  all: first [stage NotYet | stage InTasks].
Qed.

Lemma live_step_worker expected id s s' :
  live expected s -> main s ≠ MDone -> step_worker id s = Some s' ->
  main s' ≠ MDone /\ live expected s'.
Proof.
  destruct s as [stop src rn sub cnt fq bq p c skip b m out d pl].
  intros L Hm E. unfold step_worker in E; cbn in E.
  case_bool_decide; simplify_eq. split; [done|].
  destruct L as [? ? ? ? ? ? [st Hst]]. split; try done.
  exists st. by destruct st.
Qed.

Lemma live_step_consumer expected s s' :
  live expected s -> main s ≠ MDone -> step_consumer s = Some s' ->
  main s' ≠ MDone /\ live expected s'.
Proof.
  destruct s as [stop src rn sub cnt fq bq p c skip b m out d pl].
  live_intro. intros Hm E. unfold step_consumer in E; cbn in E.
  destruct c.
  - simplify_eq. split; [done|]. stage_cases st Hst.
    all: split; norm; try close.
    all: first [stage NotYet | stage InTasks].
  - repeat case_match; simplify_eq; (split; [done|]); stage_cases st Hst.
    all: split; norm; try close.
    all: try first [stage NotYet | stage InTasks | stage AtConsumer].
  - simplify_eq. repeat case_match; simplify_eq. split; [done|]. stage_cases st Hst.
    all: split; norm; try close.
    all: try first [stage NotYet | stage InTasks | stage AtConsumer | stage InDelivery].
  - destruct (Hokc f eq_refl) as [r Hr]. rewrite Hr in E.
    case_bool_decide; simplify_eq. split; [done|]. stage_cases st Hst.
    all: split; norm; rewrite ?(res_ok _ _ Hr) in *; try close.
    all: try first [stage NotYet | stage InTasks | stage AtConsumer | stage InDelivery].
  - destruct (Hf eq_refl) as [r ->]. subst skip.
    repeat case_match; simplify_eq. split; [done|]. stage_cases st Hst.
    all: split; norm; try close.
    all: try first [stage NotYet | stage InTasks | stage AtConsumer | stage InDelivery].
  - done.
  - done.
Qed.

Lemma live_step_main expected s s' :
  Forall (fun r => is_none r = false) expected ->
  live expected s -> main s ≠ MDone -> step_main s = Some s' ->
  invariant expected s'.
Proof.
  destruct s as [stop src rn sub cnt fq bq p c skip b m out d pl].
  intros HN. live_intro. intros Hm E. unfold step_main in E; cbn in E.
  destruct m.
  - simplify_eq. right. split; [by destruct stop|]. stage_cases st Hst.
    all: split; norm; try close.
    all: try first [stage NotYet | stage InTasks | stage AtConsumer
                   | stage InDelivery | stage Taken].
  - assert (Nx : forall x q, bq = Some x :: q -> is_none x = false).
    { intros x q ->. rewrite <- Hx in HN. cbn in HN.
      rewrite Forall_app, Forall_cons in HN. by destruct HN as (_ & ? & _). }
    destruct bq as [|[x|] bq]; [done|rewrite (Nx x bq eq_refl) in E|].
    all: repeat case_match; simplify_eq; right; (split; [done|]); stage_cases st Hst.
    all: split; norm; try close.
    all: try first [stage NotYet | stage InTasks | stage AtConsumer
                   | stage InDelivery | stage Taken].
  - repeat case_match; simplify_eq; right; (split; [done|]); stage_cases st Hst.
    all: split; norm; try close.
    all: try first [stage NotYet | stage InTasks | stage AtConsumer
                   | stage InDelivery | stage Taken].
  - repeat case_match; simplify_eq. left. split; [done|]. stage_cases st Hst.
    cbn. by rewrite !app_nil_r.
  - done.
Qed.

Lemma invariant_step expected t s s' :
  Forall (fun r => is_none r = false) expected ->
  invariant expected s -> step t s = Some s' -> invariant expected s'.
Proof.
  intros HN [[Hm Hy]|[Hm L]] E.
  - left. destruct s as [stop src rn sub cnt fq bq p c skip b m out d pl].
    cbn in Hm, Hy. subst m.
    destruct t; cbn in E.
    + unfold step_producer in E; cbn in E. by repeat case_match; simplify_eq.
    + unfold step_consumer in E; cbn in E. by repeat case_match; simplify_eq.
    + done.
    + unfold step_worker in E; cbn in E. by repeat case_match; simplify_eq.
  - destruct t; cbn in E.
    + right. by eapply live_step_producer.
    + right. by eapply live_step_consumer.
    + by eapply live_step_main.
    + right. by eapply live_step_worker.
Qed.

Lemma invariant_run expected sched : forall s s',
  Forall (fun r => is_none r = false) expected ->
  invariant expected s -> run sched s = Some s' -> invariant expected s'.
Proof.
  induction sched as [|t sched IH]; intros s s' HN I R; cbn in R.
  - by simplify_eq.
  - destruct (step t s) as [s1|] eqn:E; [|done].
    eapply IH; [done| |done]. by eapply invariant_step.
Qed.

(** While the generator has not finished, some thread can move. *)
Lemma live_progress expected s :
  live expected s -> main s ≠ MDone -> exists t s', step t s = Some s'.
Proof.
  destruct s as [stop src rn sub cnt fq bq p c skip b m out d pl].
  live_intro. intros Hm. cbn in Hm.
  destruct m; [| | | |done].
  - exists Main. by eexists.
  - destruct bq as [|x bq];
      [|exists Main; cbn; unfold step_main; cbn;
        destruct x as [x|]; [destruct (is_none x)|]; by eexists].
    destruct c.
    + exists Consumer. by eexists.
    + destruct fq as [|x fq];
        [|exists Consumer; cbn; unfold step_consumer; cbn; destruct x; by eexists].
      stage_cases st Hst. destruct d as [|n]; [lia|].
      exists Producer. cbn. unfold step_producer, count_maxsize, queue_maxsize. cbn.
      destruct p; try done; try by eexists. destruct src; by eexists.
    + exists Consumer. by eexists.
    + destruct (decide (f_id f ∈ rn)) as [I|I].
      * exists (Worker (f_id f)). cbn. unfold step_worker. cbn.
        rewrite bool_decide_eq_true_2 by done. by eexists.
      * exists Consumer. cbn. unfold step_consumer. cbn.
        rewrite bool_decide_eq_false_2 by done.
        destruct (Hokc f eq_refl) as [r ->]. by eexists.
    + exists Consumer. cbn. unfold step_consumer. cbn. subst skip.
      destruct (Hf eq_refl) as [r ->]. by eexists.
    + stage_cases st Hst. by destruct_or!.
    + stage_cases st Hst.
  - exists Main. cbn. unfold step_main. cbn. cbn in Ht. subst cnt.
    rewrite Nat.add_1_r. by eexists.
  - stage_cases st Hst.
    destruct rn as [|id rn].
    + exists Main. by eexists.
    + exists (Worker id). cbn. unfold step_worker. cbn.
      rewrite bool_decide_eq_true_2 by (apply elem_of_cons; by left). by eexists.
Qed.

Lemma consume_skipping batch rs : consume true batch rs = [].
Proof.
  revert batch. induction rs as [|r rs IH]; intros batch; [done|].
  cbn. destruct r as [?|[]]; apply IH.
Qed.

Lemma consume_succeeds l : forall batch,
  Forall succeeds l -> consume false batch (map exec l) = map res l.
Proof.
  induction l as [|b l IH]; intros batch F; [done|].
  apply Forall_cons in F as [[r Hr] F]. cbn.
  rewrite (res_ok _ _ Hr), Hr. f_equal. by apply IH.
Qed.

Lemma consume_app_succeeds l rs : forall batch,
  Forall succeeds l ->
  exists batch',
    consume false batch (map exec l ++ rs) = map res l ++ consume false batch' rs.
Proof.
  induction l as [|b l IH]; intros batch F; [by exists batch|].
  apply Forall_cons in F as [[r Hr] F]. cbn [map app consume].
  rewrite Hr, (res_ok _ _ Hr). destruct (IH (Some r) F) as [batch' ->].
  by exists batch'.
Qed.

Lemma gen_batch_inline_succeeds l :
  Forall succeeds l -> gen_batch_inline l = (map res l, None).
Proof.
  induction l as [|b l IH]; intros F; [done|].
  apply Forall_cons in F as [[r Hr] F]. cbn.
  by rewrite Hr, (res_ok _ _ Hr), IH.
Qed.

(** The state [gen_batch] sets up before the service threads start. *)
Lemma gen_batch_prefetch_ok k target gen :
  target = "threads" \/ target = "mpc" ->
  exists s0,
    gen_batch_prefetch k target gen = Ok s0
    /\ s0 = mkRun false gen [] 0 0 [] [] PLoop CLoop false None MLoop []
                  (Nat.min k 62) (pool s0)
    /\ max_workers (pool s0) = Nat.min k 62 + 1.
Proof.
  intros [-> | ->]; eexists; (split; [reflexivity|]); by cbn.
Qed.

Lemma plan_start gen k pl :
  plan (mkRun false gen [] 0 0 [] [] PLoop CLoop false None MLoop [] k pl)
  = consume false None (map exec gen).
Proof. reflexivity. Qed.

Lemma invariant_start gen k pl :
  0 < k -> Forall succeeds gen ->
  invariant (map res gen)
    (mkRun false gen [] 0 0 [] [] PLoop CLoop false None MLoop [] k pl).
Proof.
  intros K F. right. split; [done|]. split; cbn; try done.
  by exists NotYet.
Qed.

Lemma gen_batch_prefetch_inv k target gen s0 :
  gen_batch_prefetch k target gen = Ok s0 ->
  exists pl,
    s0 = mkRun false gen [] 0 0 [] [] PLoop CLoop false None MLoop []
               (Nat.min k 62) pl
    /\ max_workers pl = Nat.min k 62 + 1.
Proof.
  unfold gen_batch_prefetch. intros E.
  repeat case_match; simplify_eq; by eexists.
Qed.

Lemma gen_batch_inline_skip pre b post :
  Forall succeeds pre -> exec b = Raise SkipBatchException ->
  gen_batch_inline (pre ++ b :: post)
  = (map res pre ++ (gen_batch_inline post).1, (gen_batch_inline post).2).
Proof.
  intros F B. induction pre as [|a pre IH]; cbn.
  - rewrite B. by destruct (gen_batch_inline post).
  - apply Forall_cons in F as [[r Hr] F]. rewrite Hr, (res_ok _ _ Hr), (IH F). done.
Qed.

(** *** The claims about the engine *)

(** C1 on the code. When a batch raises the Skip signal in a prefetch run,
    the consumer's flag [skip_batch] is never reset, so no batch generated
    after it is ever delivered: whatever the schedule, what has been yielded
    is a prefix of the results of the batches before the skipped one. The
    generator without prefetch (the sibling path) drops the skipped batch only
    and goes on with the batches after it. *)
Theorem skip_blocks_later_batches k target pre b post s0 sched s :
  exec b = Raise SkipBatchException -> Forall succeeds pre ->
  gen_batch_prefetch k target (pre ++ b :: post) = Ok s0 ->
  run sched s0 = Some s ->
  yielded s `prefix_of` map res pre
  /\ gen_batch_inline (pre ++ b :: post)
     = (map res pre ++ (gen_batch_inline post).1, (gen_batch_inline post).2).
Proof.
  intros B F G R. split; [|by apply gen_batch_inline_skip].
  apply gen_batch_prefetch_inv in G as (pl & -> & _).
  etrans; [apply yielded_plan|]. etrans; [by eapply run_plan|].
  rewrite plan_start, map_app. cbn [map].
  destruct (consume_app_succeeds pre (exec b :: map exec post) None F) as [b' ->].
  cbn [consume]. rewrite B, consume_skipping. by rewrite app_nil_r.
Qed.

(** C2, as the code has it. For an action chain that executes every
    generated batch without raising and returns a batch (not None) for each,
    the generator without prefetch yields the results in generation order and
    ends normally; and with worker threads and any prefetch depth k > 0,
    under every schedule of the threads and every order in which the workers
    finish, the run takes a bounded number of steps, what it has yielded is
    always a prefix of that same sequence, and when no thread can move any
    more the generator has finished and has yielded exactly that sequence. *)
Theorem prefetch_matches_inline k gen :
  0 < k -> Forall succeeds gen -> Forall (fun b => is_none (res b) = false) gen ->
  gen_batch_inline gen = (map res gen, None)
  /\ exists s0,
      gen_batch_prefetch k "threads" gen = Ok s0
      /\ kind (pool s0) = Threads
      /\ forall sched s,
          run sched s0 = Some s ->
          length sched <= 12 * length gen + 12
          /\ yielded s `prefix_of` (gen_batch_inline gen).1
          /\ (stuck s -> main s = MDone /\ yielded s = (gen_batch_inline gen).1).
Proof.
  intros K F HN. split; [by apply gen_batch_inline_succeeds|].
  eexists. split; [reflexivity|]. split; [reflexivity|]. intros sched s R.
  rewrite gen_batch_inline_succeeds by done. cbn [fst].
  split; [|split].
  - apply run_potential in R. unfold potential in R at 2. cbn in R. lia.
  - etrans; [apply yielded_plan|]. etrans; [by eapply run_plan|].
    by rewrite plan_start, (consume_succeeds _ _ F).
  - intros S.
    assert (I : invariant (map res gen) s).
    { eapply invariant_run; [|apply invariant_start|exact R]; [|lia|done].
      by apply Forall_fmap. }
    destruct I as [I|[Hm L]]; [done|].
    destruct (live_progress _ _ L Hm) as (t & s' & E). by rewrite S in E.
Qed.

(** C9, as the code has it. For a prefetch depth d > 0 the worker pool is
    created with min(d, 62) + 1 workers, so it never has more than 63. *)
Theorem pool_size k target gen s0 :
  0 < k -> gen_batch_prefetch k target gen = Ok s0 ->
  max_workers (pool s0) = Nat.min k 62 + 1 /\ max_workers (pool s0) <= 63.
Proof.
  intros K G. apply gen_batch_prefetch_inv in G as (pl & -> & M).
  cbn [pool]. lia.
Qed.

End Engine.

(** ** Worked examples

    A small world to run the definitions in: sources are numbers, a batch is
    a number, every batch class knows every method, [scale] doubles a batch,
    any other action adds one, and a joined source [n] gives the batch
    [1000 * n + index]. *)

Definition demo_truthy (_ : nat) : bool := true.
Definition demo_is_method (_ : string) : bool := true.
Definition demo_index (b : Z) : Z := b.
Definition demo_create (ds : nat) (i : Z) : Z := (1000 * Z.of_nat ds + i)%Z.

Definition demo_call (b : Z) (name : string) (args : list (@Arg Z))
    (kwargs : list (string * PyVal)) : result Z :=
  if String.eqb name "scale" then Ok (2 * b)%Z else Ok (b + 1)%Z.

Definition demo_binomial (n : Z) (p : float) (g : unit) : result Z * unit :=
  (Ok n, g).

Definition demo_scale : @Action nat :=
  mkAction "scale" [VInt 2] [] None None None None.

Definition demo_crop : @Action nat :=
  mkAction "crop" [VInt 3] [] None None None None.

(** Pipeline 0 is [scale(2)] bound to source 7, pipeline 1 is [crop(3)]
    unbound, pipeline 2 holds both actions, pipeline 3 is empty. *)
Definition demo_store : @Store nat :=
  mkStore [demo_scale; demo_crop]
          [mkPipe (Some 7) [0]; mkPipe None [1]; mkPipe (Some 7) [0; 1];
           mkPipe None []].

Lemma concat_spec_witness :
  (exists new_p h',
      concat demo_truthy 0 1 demo_store = (Ok new_p, h')
      /\ pipelines h' !! new_p = Some (mkPipe (Some 7) [0; 1]))
  /\ exists new_p h',
      concat (fun _ : nat => false) 0 3 demo_store = (Ok new_p, h')
      /\ pipelines h' !! new_p = Some (mkPipe None [0]).
Proof.
  split.
  - destruct (concat_spec demo_truthy demo_store 0 1 (mkPipe (Some 7) [0])
                (mkPipe None [1]) eq_refl eq_refl) as (_ & K & _).
    destruct K as (n & h' & E & _ & L & _).
    + intros (_ & N & _). by apply N.
    + exists n, h'. split; [exact E|exact L].
  - destruct (concat_spec (fun _ : nat => false) demo_store 0 3
                (mkPipe (Some 7) [0]) (mkPipe None []) eq_refl eq_refl)
      as (_ & _ & K).
    apply (K 7); reflexivity.
Defined.

(** For a source that is false in a boolean context, [a or b] passes to the
    second operand: concatenating pipeline 0, bound to source 7, with the
    unbound empty pipeline 3 gives an unbound pipeline, although nothing was
    raised and the first operand has a source. *)
Lemma concat_false_source_example :
  exists new_p h',
    concat (fun _ : nat => false) 0 3 demo_store = (Ok new_p, h')
    /\ pipelines h' !! new_p = Some (mkPipe None [0]).
Proof. eexists _, _. split; reflexivity. Qed.

Lemma add_empty_right_witness :
  __add__ demo_truthy 0 (VPipeline 3) demo_store = (Ok 0, demo_store).
Proof.
  apply (add_empty_right demo_truthy demo_store 0 3 (mkPipe None []));
    reflexivity.
Defined.

Lemma compose_twice_witness :
  (exists Q R h1 h2,
      __matmul__ 0 (VFloat 0.5) demo_store = (Ok Q, h1)
      /\ __matmul__ Q (VFloat 0.25) h1 = (Ok R, h2)
      /\ pipelines h2 !! R = Some (mkPipe (Some 7) [0])
      /\ actions h2 !! 0 = Some (with_proba demo_scale (Some (0.5 * 0.25)%float)))
  /\ (exists Q R h1 h2,
      __mul__ 0 (VInt 2) demo_store = (Ok Q, h1)
      /\ __mul__ Q (VInt 3) h1 = (Ok R, h2)
      /\ pipelines h2 !! R = Some (mkPipe (Some 7) [0])
      /\ actions h2 !! 0 = Some (with_repeat demo_scale (Some (2 * 3)%Z))).
Proof.
  destruct (compose_twice demo_store 0 (mkPipe (Some 7) [0]) 0 demo_scale
              eq_refl eq_refl eq_refl) as [A B].
  split.
  - apply (A 0.5%float 0.25%float); reflexivity.
  - apply (B 2%Z 3%Z); [reflexivity|lia|lia].
Defined.

(** A single action that already carries the probability 0.5: applying 0.5
    twice more leaves 0.125 on it, not 0.5 * 0.5. *)
Definition demo_store_half : @Store nat :=
  mkStore [with_proba demo_scale (Some 0.5%float)] [mkPipe (Some 7) [0]].

Lemma compose_twice_counterexample :
  exists Q R h1 h2 d,
    __matmul__ 0 (VFloat 0.5) demo_store_half = (Ok Q, h1)
    /\ __matmul__ Q (VFloat 0.5) h1 = (Ok R, h2)
    /\ pipelines h2 !! R = Some (mkPipe (Some 7) [0])
    /\ actions h2 !! 0 = Some d
    /\ a_repeat d = None
    /\ a_proba d = Some 0.125%float
    /\ a_proba d ≠ Some (0.5 * 0.5)%float.
Proof.
  eexists _, _, _, _, _. repeat split; try (vm_compute; reflexivity).
  discriminate.
Qed.

Lemma matmul_checks_witness :
  __matmul__ 3 (VFloat 0.5) demo_store = (Raise ValueError, demo_store)
  /\ __matmul__ 0 (VInt 2) demo_store = (Raise TypeError, demo_store)
  /\ __matmul__ 0 (VStr "half") demo_store = (Raise TypeError, demo_store)
  /\ __matmul__ 0 (VFloat nan) demo_store = (Raise ValueError, demo_store)
  /\ __matmul__ 0 (VFloat 1.5) demo_store
     = (Ok 4, mkStore (actions demo_store)
                      (pipelines demo_store ++ [mkPipe (Some 7) [0]]))
  /\ __matmul__ 0 (VFloat 2.5) demo_store_half
     = (Ok 1, mkStore [with_proba demo_scale (Some 1.25%float)]
                      [mkPipe (Some 7) [0]; mkPipe (Some 7) [0]])
  /\ __matmul__ 2 (VInt 0) demo_store
     = (Ok 4,
        mkStore (actions demo_store
                 ++ [mkAction PIPELINE_ID [] [] (Some 0%float) None (Some 2) None])
                (pipelines demo_store ++ [mkPipe None [2]])).
Proof.
  destruct (matmul_checks demo_store 3 (mkPipe None []) eq_refl) as [A _].
  destruct (matmul_checks demo_store 0 (mkPipe (Some 7) [0]) eq_refl) as [_ B].
  destruct (matmul_checks demo_store_half 0 (mkPipe (Some 7) [0]) eq_refl)
    as [_ C].
  destruct (matmul_checks demo_store 2 (mkPipe (Some 7) [0; 1]) eq_refl)
    as [_ D].
  destruct B as (_ & B1 & B2 & B3 & _); [discriminate|].
  destruct C as (_ & _ & _ & _ & C4 & _); [discriminate|].
  destruct D as (_ & _ & _ & _ & _ & D5); [discriminate|].
  split; [by apply A|].
  split; [by apply B1|].
  split; [by apply B1|].
  split; [by apply B2|].
  split; [apply B3; by exists 1%Z|].
  split.
  - apply (C4 (VFloat 2.5) 2.5%float 0 (with_proba demo_scale (Some 0.5%float)));
      [by exists 2%Z|reflexivity|reflexivity|reflexivity].
  - apply (D5 (VInt 0) 0%float); [by left|left; cbn; lia].
Defined.

(** The float 2.5 lies outside the interval from 0 to 1, and [@] stores it. *)
Lemma matmul_checks_counterexample :
  (1 <? 2.5)%float = true
  /\ exists h',
      __matmul__ 0 (VFloat 2.5) demo_store = (Ok 4, h')
      /\ actions h' !! 0 = Some (with_proba demo_scale (Some 2.5%float)).
Proof. split; [reflexivity|]. eexists. split; reflexivity. Qed.

Lemma compose_multi_wraps_witness :
  __matmul__ 2 (VFloat 0.5) demo_store
  = (Ok 4,
     mkStore (actions demo_store
              ++ [mkAction PIPELINE_ID [] [] (Some 0.5%float) None (Some 2) None])
             (pipelines demo_store ++ [mkPipe None [2]]))
  /\ __mul__ 2 (VInt 3) demo_store
     = (Ok 4,
        mkStore (actions demo_store
                 ++ [mkAction PIPELINE_ID [] [] None (Some 3%Z) (Some 2) None])
                (pipelines demo_store ++ [mkPipe None [2]])).
Proof.
  assert (L : 2 <= length (_action_list (mkPipe (Some 7) [0; 1]))) by (cbn; lia).
  destruct (compose_multi_wraps demo_store 2 (mkPipe (Some 7) [0; 1]) eq_refl L)
    as [A B].
  split; [apply (A 0.5%float 0%Z); [reflexivity|lia]|apply B; lia].
Defined.

(** Pipeline 2 has two actions; neither operator raises on it. *)
Lemma compose_multi_counterexample :
  (exists o, pipelines demo_store !! 2 = Some o /\ length (_action_list o) = 2)
  /\ (__matmul__ 2 (VFloat 0.5) demo_store).1 = Ok 4
  /\ (__mul__ 2 (VInt 3) demo_store).1 = Ok 4.
Proof. split; [by eexists|]. split; reflexivity. Qed.

Lemma repeat_zero_runs_once_witness :
  exists R h',
    __mul__ 0 (VInt 0) demo_store = (Ok R, h')
    /\ forall depth b s,
         _exec demo_index demo_create demo_call demo_binomial h' (S depth) R b s
         = invoke demo_call b "scale" [AVal (VInt 2)] [] s.
Proof.
  destruct (repeat_zero_runs_once demo_index demo_create demo_call demo_binomial
              demo_store 0 (mkPipe (Some 7) [0]) 0 demo_scale
              eq_refl eq_refl eq_refl eq_refl)
    as (R & h' & E & _ & X); [discriminate|discriminate|].
  exists R, h'. split; [exact E|exact X].
Defined.

(** [P * 0] executed on the batch 5: [scale] is called once, and the batch
    that comes back is 10, not 5. *)
Lemma repeat_zero_example :
  exists R h',
    __mul__ 0 (VInt 0) demo_store = (Ok R, h')
    /\ _exec demo_index demo_create demo_call demo_binomial h' 3 R 5%Z
         (mkExecSt tt [])
       = (Ok 10%Z, mkExecSt tt [mkCall 5%Z "scale" [AVal (VInt 2)] []]).
Proof. eexists _, _. split; reflexivity. Qed.

Lemma join_feeds_next_action_witness :
  exists J R h1 h2,
    join 0 [8] demo_store = (Ok J, h1)
    /\ __getattr__ demo_is_method J "combine" [VInt 5] [] h1 = (Ok R, h2)
    /\ forall depth b s,
         _exec demo_index demo_create demo_call demo_binomial h2 (S depth) R b s
         = (b0 ← exec_loop demo_index demo_create demo_call demo_binomial h2
                   (_exec_all_actions demo_index demo_create demo_call
                      demo_binomial h2 depth R) None b [0];
            invoke demo_call b0 "combine"
              (ABatch (demo_create 8 (demo_index b0)) :: [AVal (VInt 5)]) []) s.
Proof.
  destruct (join_feeds_next_action demo_is_method demo_index demo_create
              demo_call demo_binomial) as [_ X].
  apply (X demo_store 0 (mkPipe (Some 7) [0]) 8 "combine"%string [VInt 5] []);
    [reflexivity|reflexivity|discriminate|discriminate].
Defined.

(** [scale(2)], then [join(8)], then [combine(5)], on the batch 5: [combine]
    is called on the scaled batch with the batch from source 8 first. *)
Lemma join_example :
  exists J R h1 h2,
    join 0 [8] demo_store = (Ok J, h1)
    /\ __getattr__ demo_is_method J "combine" [VInt 5] [] h1 = (Ok R, h2)
    /\ _exec demo_index demo_create demo_call demo_binomial h2 3 R 5%Z
         (mkExecSt tt [])
       = (Ok 11%Z,
          mkExecSt tt [mkCall 5%Z "scale" [AVal (VInt 2)] [];
                       mkCall 10%Z "combine" [ABatch 8010%Z; AVal (VInt 5)] []]).
Proof. eexists _, _, _, _. repeat split; reflexivity. Qed.

(** *** The engine on three batches

    Batches are numbers and a result is ten times the batch. *)

Definition demo_exec_ok (b : nat) : result nat := Ok (10 * b).

(** The number 0 stands for None among the results. *)
Definition demo_is_none (b : nat) : bool := Nat.eqb b 0.

(** The chain signals Skip on batch 2. *)
Definition demo_exec_skip (b : nat) : result nat :=
  if Nat.eqb b 2 then Raise SkipBatchException else Ok (10 * b).

(** The chain fails with another exception on batch 2. *)
Definition demo_exec_error (b : nat) : result nat :=
  if Nat.eqb b 2 then Raise ValueError else Ok (10 * b).

Definition demo_start (depth : nat) : @Run nat :=
  mkRun false [1; 2; 3] [] 0 0 [] [] PLoop CLoop false None MLoop [] depth
        (mkExecutor Threads (depth + 1)).

(** A schedule in which task 1 finishes before task 0. *)
Definition demo_schedule_skip : list thread :=
  [Producer; Producer; Producer; Producer; Producer; Producer; Producer;
   Worker 1; Worker 0; Consumer; Consumer; Producer; Producer; Consumer;
   Consumer; Consumer; Consumer; Consumer; Consumer; Consumer; Main; Main;
   Main; Producer; Producer; Producer; Producer; Worker 2; Consumer; Consumer;
   Consumer; Consumer; Main].

Definition demo_schedule_error : list thread :=
  [Producer; Producer; Producer; Producer; Producer; Producer; Producer;
   Worker 1; Worker 0; Consumer; Consumer; Producer; Producer; Consumer;
   Consumer; Consumer; Consumer; Consumer; Main; Main; Consumer; Consumer;
   Main; Producer; Producer; Producer; Producer; Worker 2; Consumer; Consumer;
   Main; Main; Consumer; Consumer; Main; Producer; Producer; Producer;
   Consumer; Main; Main; Consumer; Main; Main; Main; Main; Main].

Definition demo_schedule_ok : list thread :=
  [Producer; Producer; Producer; Producer; Producer; Producer; Producer;
   Producer; Producer; Producer; Producer; Worker 2; Worker 1; Worker 0;
   Consumer; Consumer; Producer; Producer; Consumer; Consumer; Consumer;
   Consumer; Consumer; Main; Main; Consumer; Consumer; Consumer; Consumer;
   Main; Producer; Producer; Producer; Main; Main; Consumer; Consumer;
   Consumer; Main; Main; Main; Consumer; Main; Main; Main; Main; Main].

Lemma demo_succeeds : Forall (succeeds demo_exec_ok) [1; 2; 3].
Proof. repeat constructor; by eexists. Qed.

Lemma skip_blocks_later_batches_witness :
  exists s,
    run demo_exec_skip demo_is_none demo_schedule_skip (demo_start 1) = Some s
    /\ yielded s `prefix_of` [10]
    /\ gen_batch_inline demo_exec_skip [1; 2; 3] = ([10; 30], None).
Proof.
  eexists. split; [vm_compute; reflexivity|].
  apply (skip_blocks_later_batches demo_exec_skip demo_is_none 1 "threads" [1] 2 [3]
           (demo_start 1) demo_schedule_skip).
  - reflexivity.
  - repeat constructor. by eexists.
  - reflexivity.
  - vm_compute; reflexivity.
Defined.

(** With depth 1 that schedule ends in a state in which no thread can move:
    the producer waits for an admission token, the consumer for a task, the
    generator for a batch; batch 3 was executed and dropped. *)
Lemma skip_deadlock_example :
  exists s,
    run demo_exec_skip demo_is_none demo_schedule_skip (demo_start 1) = Some s
    /\ stuck demo_exec_skip demo_is_none s
    /\ main s = MGet /\ yielded s = [10] /\ skip_batch s = true.
Proof.
  eexists. split; [vm_compute; reflexivity|]. split; [|done].
  intros [| | |id]; reflexivity.
Qed.

Lemma prefetch_matches_inline_witness :
  gen_batch_inline demo_exec_ok [1; 2; 3] = ([10; 20; 30], None)
  /\ exists s,
      run demo_exec_ok demo_is_none demo_schedule_ok (demo_start 2) = Some s
      /\ length demo_schedule_ok <= 48
      /\ yielded s `prefix_of` [10; 20; 30].
Proof.
  destruct (prefetch_matches_inline demo_exec_ok demo_is_none 2 [1; 2; 3])
    as [I (s0 & G & _ & X)]; [lia|exact demo_succeeds|by repeat constructor|].
  split; [exact I|]. injection G as <-.
  eexists. split; [vm_compute; reflexivity|].
  edestruct (X demo_schedule_ok) as (L & P & _); [vm_compute; reflexivity|].
  split; [exact L|exact P].
Defined.

(** On a chain that raises ValueError on batch 2, the generator without
    prefetch yields 10 and ends with the exception, while a prefetch run of
    depth 1 runs to its end and yields 10, 10, 30. *)
Lemma prefetch_differs_on_error :
  gen_batch_inline demo_exec_error [1; 2; 3] = ([10], Some ValueError)
  /\ gen_batch_prefetch 1 "threads" [1; 2; 3] = Ok (demo_start 1)
  /\ exists s,
      run demo_exec_error demo_is_none demo_schedule_error (demo_start 1) = Some s
      /\ main s = MDone
      /\ yielded s = [10; 10; 30]
      /\ yielded s ≠ (gen_batch_inline demo_exec_error [1; 2; 3]).1.
Proof.
  split; [reflexivity|]. split; [reflexivity|].
  eexists. split; [vm_compute; reflexivity|]. by repeat split.
Qed.

(** The chain returns None on batch 2. *)
Definition demo_exec_none (b : nat) : result nat :=
  if Nat.eqb b 2 then Ok 0 else Ok (10 * b).

Definition demo_schedule_none : list thread :=
  [Main; Consumer; Producer; Producer; Producer; Worker 0; Producer; Consumer;
   Consumer; Consumer; Main; Main; Main; Consumer; Producer; Producer;
   Producer; Worker 1; Producer; Consumer; Consumer; Consumer; Main; Main;
   Consumer; Producer; Producer; Main].

(** On a chain that returns None on batch 2, the generator without prefetch
    yields 10, None and 30, while a prefetch run takes the None for the end of
    the batches: it yields 10 and finishes, and batch 3 is never generated. *)
Lemma prefetch_stops_at_none :
  gen_batch_inline demo_exec_none [1; 2; 3] = ([10; 0; 30], None)
  /\ exists s,
      run demo_exec_none demo_is_none demo_schedule_none (demo_start 1) = Some s
      /\ main s = MDone
      /\ yielded s = [10]
      /\ source s = [3].
Proof.
  split; [reflexivity|].
  eexists. split; [vm_compute; reflexivity|]. by repeat split.
Qed.

Lemma pool_size_witness :
  max_workers (pool (demo_start 4)) = Nat.min 4 62 + 1
  /\ max_workers (pool (demo_start 4)) <= 63.
Proof.
  apply (pool_size 4 "threads" [1; 2; 3] (demo_start 4)); [lia|reflexivity].
Defined.

(** A prefetch depth of 62 gives a pool of 63 workers. *)
Lemma pool_size_counterexample :
  exists s0 : @Run nat,
    gen_batch_prefetch 62 "threads" [] = Ok s0
    /\ max_workers (pool s0) = 63
    /\ max_workers (pool s0) ≠ Nat.min 62 61 + 1
    /\ ~ max_workers (pool s0) <= 62.
Proof.
  eexists. split; [reflexivity|]. cbn. split; [reflexivity|]. split; lia.
Qed.

(** ** Further properties of the composition operators *)

Section Composition.

Context {Dataset : Type} `{EqDecision Dataset}.
Variable truthy : Dataset -> bool.
Variable is_batch_method : string -> bool.

Implicit Types (h : @Store Dataset) (o : @PipeObj Dataset) (d : @Action Dataset).

(** X1. [mult_option] on repeat counts is a commutative monoid with None as its
    unit; on probabilities it commutes and has None as its unit. *)
Theorem mult_option_laws :
  (forall a : option Z, mult_option Z.mul None a = a /\ mult_option Z.mul a None = a)
  /\ (forall a b : option Z, mult_option Z.mul a b = mult_option Z.mul b a)
  /\ (forall a b c : option Z,
        mult_option Z.mul a (mult_option Z.mul b c)
        = mult_option Z.mul (mult_option Z.mul a b) c)
  /\ (forall a : option float,
        mult_option PrimFloat.mul None a = a /\ mult_option PrimFloat.mul a None = a)
  /\ (forall a b : option float,
        mult_option PrimFloat.mul a b = mult_option PrimFloat.mul b a).
Proof.
  split; [by intros [?|]|]. split.
  { intros [x|] [y|]; cbn; f_equal; lia. }
  split.
  { intros [x|] [y|] [z|]; cbn; f_equal; lia. }
  split; [by intros [?|]|].
  intros [x|] [y|]; cbn; f_equal. apply float_mul_comm.
Qed.

(** X2. Calling an unknown attribute of a pipeline as a method: a name that no
    batch class knows raises AttributeError and leaves every object as it
    was. A known name yields a new pipeline object over the receiver's
    entries followed by one new dict with that name, the given arguments, and
    neither probability nor repeat count; the receiver, every other pipeline
    and every existing dict are unchanged. *)
Theorem getattr_appends h P o name args kwargs :
  pipelines h !! P = Some o ->
  (is_batch_method name = false ->
     __getattr__ is_batch_method P name args kwargs h = (Raise AttributeError, h))
  /\ (is_batch_method name = true ->
      exists R a h',
        __getattr__ is_batch_method P name args kwargs h = (Ok R, h')
        /\ pipelines h !! R = None /\ actions h !! a = None
        /\ pipelines h' !! R = Some (mkPipe (dataset o) (_action_list o ++ [a]))
        /\ actions h' !! a = Some (mkAction name args kwargs None None None None)
        /\ (forall p o', pipelines h !! p = Some o' -> pipelines h' !! p = Some o')
        /\ (forall a' d, actions h !! a' = Some d -> actions h' !! a' = Some d)).
Proof.
  intros E. split; intros B.
  - unfold __getattr__. by rewrite B.
  - eexists _, (length (actions h)), _.
    split; [by apply (getattr_eq _ _ _ o)|]. cbn [pipelines actions].
    split; [apply lookup_ge_None_2; lia|].
    split; [apply lookup_ge_None_2; lia|].
    split; [apply lookup_new_pipe|].
    split; [by apply list_lookup_middle|].
    split; intros ? ? L; by apply lookup_app_l_Some.
Qed.

Lemma from_pipeline_repeat_nested_single h p o a d n :
  pipelines h !! p = Some o -> _action_list o = [a] ->
  actions h !! a = Some d -> a_proba d ≠ None ->
  from_pipeline p None (Some n) h
  = (Ok (length (pipelines h)),
     mkStore (actions h ++ [mkAction PIPELINE_ID [] [] None (Some n) (Some p) None])
             (pipelines h ++ [mkPipe None [length (actions h)]])).
Proof.
  intros E L D R. unfold from_pipeline.
  rewrite bind_run, (num_actions_eq _ _ _ E), L. cbn [length Nat.eqb].
  assert (La : last (_action_list o) = Some a) by by rewrite L.
  rewrite !bind_run, (get_last_action_proba_eq _ _ _ _ _ E La D).
  cbn [mret ST_ret]. rewrite bool_decide_eq_false_2 by done.
  rewrite bind_run, init_empty. apply append_pipeline_fresh.
Qed.

Lemma from_pipeline_repeat_ok h p o n :
  pipelines h !! p = Some o -> allocated h o ->
  exists R h', from_pipeline p None (Some n) h = (Ok R, h').
Proof.
  intros E W.
  destruct (decide (length (_action_list o) = 1)) as [L1|L1].
  - destruct (_action_list o) as [|a [|? ?]] eqn:L; try done.
    unfold allocated in W. rewrite L in W.
    apply Forall_cons in W as [[d D] _].
    destruct (a_proba d) as [r|] eqn:R.
    + eexists _, _. apply (from_pipeline_repeat_nested_single _ _ _ _ _ _ E L D).
      by rewrite R.
    + eexists _, _. by apply (from_pipeline_repeat_single _ _ _ _ _ _ E L D).
  - eexists _, _. by apply (from_pipeline_repeat_nested _ _ _ _ E).
Qed.

(** X3. The repeat operator's checks. A negative integer, a Python int or a
    numpy integer, and every float raise ValueError. An operand that cannot be
    compared with 0 (None, a string, a pipeline) raises TypeError at the
    comparison. An operand that compares with 0, is not negative and is
    neither an int nor a float, as a numpy integer is, gets past both
    [isinstance] tests, and [return new_p] raises UnboundLocalError. Nothing
    has been created or changed when the operator raises. A non-negative int
    is accepted on every pipeline, the empty one included. *)
Theorem mul_checks h P o :
  pipelines h !! P = Some o -> allocated h o ->
  (forall n, (n < 0)%Z ->
      __mul__ P (VInt n) h = (Raise ValueError, h)
      /\ __mul__ P (VNpInt n) h = (Raise ValueError, h))
  /\ (forall f, __mul__ P (VFloat f) h = (Raise ValueError, h))
  /\ __mul__ P VNone h = (Raise TypeError, h)
  /\ (forall t, __mul__ P (VStr t) h = (Raise TypeError, h))
  /\ (forall Q, __mul__ P (VPipeline Q) h = (Raise TypeError, h))
  /\ (forall n, (0 <= n)%Z -> __mul__ P (VNpInt n) h = (Raise UnboundLocalError, h))
  /\ (forall v, isinstance_int v = false -> isinstance_float v = false ->
        __mul__ P v h
        = (match lt_0 v with
           | Raise e => Raise e
           | Ok true => Raise ValueError
           | Ok false => Raise UnboundLocalError
           end, h))
  /\ (forall n, (0 <= n)%Z -> exists R h', __mul__ P (VInt n) h = (Ok R, h')).
Proof.
  intros E W. split.
  { intros n N. unfold __mul__, lt_0. rewrite !bind_run, !lift_run.
    by destruct (Z.ltb_spec n 0); [|lia]. }
  split.
  { intros f. unfold __mul__, lt_0. rewrite bind_run, lift_run.
    by destruct (f <? 0)%float. }
  split; [done|]. split; [done|]. split; [done|].
  split.
  { intros n N. unfold __mul__, lt_0. rewrite bind_run, lift_run.
    by destruct (Z.ltb_spec n 0); [lia|]. }
  split.
  { intros v I F. destruct v as [|z|f|?|?|z]; try done.
    unfold __mul__, lt_0. rewrite bind_run, lift_run. by destruct (z <? 0)%Z. }
  intros n N. rewrite mul_int by done. by apply from_pipeline_repeat_ok with o.
Qed.

(** X4. Empty on the left: [P + Q] for an empty [P] that is unbound, or bound as
    [Q] is, and a [Q] with actions returns a new object with Q's entries and
    Q's source, and leaves [Q] as it was. *)
Theorem add_empty_left h P Q op oq :
  pipelines h !! P = Some op -> pipelines h !! Q = Some oq ->
  _action_list op = [] -> _action_list oq ≠ [] ->
  dataset op = None \/ dataset op = dataset oq ->
  exists R h',
    __add__ truthy P (VPipeline Q) h = (Ok R, h')
    /\ pipelines h !! R = None
    /\ pipelines h' !! R = Some (mkPipe (dataset oq) (_action_list oq))
    /\ pipelines h' !! Q = Some oq
    /\ actions h' = actions h.
Proof.
  intros EP EQ LP LQ D. unfold __add__.
  rewrite bind_run, (num_actions_eq _ _ _ EQ).
  destruct (_action_list oq) as [|x l] eqn:L; [done|]. cbn [length Nat.ltb Nat.leb].
  rewrite (concat_eq _ _ _ _ _ _ EP EQ), LP, L. cbn [app].
  assert (C : bool_decide (dataset op ≠ dataset oq) && bool_decide (dataset op ≠ None)
              && bool_decide (dataset oq ≠ None) = false).
  { destruct D as [D|D]; rewrite D.
    - rewrite (bool_decide_eq_false_2 (None ≠ None)) by (intros N; by apply N).
      by rewrite andb_false_r.
    - by rewrite (bool_decide_eq_false_2 (dataset oq ≠ dataset oq))
        by (intros N; by apply N). }
  rewrite C. eexists _, _. split; [reflexivity|]. cbn [pipelines actions].
  split; [apply lookup_ge_None_2; lia|].
  split.
  - rewrite lookup_app_r, Nat.sub_diag by lia. cbn. do 2 f_equal.
    unfold py_or. destruct D as [-> | ->]; [done|].
    destruct (dataset oq) as [ds|]; [|done]. by destruct (truthy ds).
  - split; [by apply lookup_app_l_Some|done].
Qed.

Lemma py_or_assoc (a b c : option Dataset) :
  py_or truthy (py_or truthy a b) c = py_or truthy a (py_or truthy b c).
Proof.
  unfold py_or. destruct a as [x|]; [|done].
  destruct (truthy x) eqn:X; [by rewrite X|done].
Qed.

Lemma concat_inv h P Q r h' :
  concat truthy P Q h = (Ok r, h') ->
  exists op oq,
    pipelines h !! P = Some op /\ pipelines h !! Q = Some oq
    /\ r = length (pipelines h)
    /\ h' = mkStore (actions h)
              (pipelines h
               ++ [mkPipe (py_or truthy (dataset op) (dataset oq))
                          (_action_list op ++ _action_list oq);
                   mkPipe (dataset oq) (_action_list oq)]).
Proof.
  intros C.
  destruct (pipelines h !! P) as [op|] eqn:EP; cycle 1.
  { unfold concat, get_pipe in C. rewrite bind_run, EP in C. done. }
  destruct (pipelines h !! Q) as [oq|] eqn:EQ; cycle 1.
  { unfold concat, get_pipe in C. rewrite bind_run, EP, bind_run, EQ in C. done. }
  rewrite (concat_eq _ _ _ _ _ _ EP EQ) in C.
  destruct (_ && _); simplify_eq. by exists op, oq.
Qed.

(** X5. Concatenation is associative on what it builds: whenever [(P + Q) + R]
    and [P + (Q + R)] are both built, the two results have the same entries
    in the same order and the same source, and no dict has changed. *)
Theorem concat_assoc h P Q R PQ h1 L h2 QR h1' L' h2' :
  concat truthy P Q h = (Ok PQ, h1) -> concat truthy PQ R h1 = (Ok L, h2) ->
  concat truthy Q R h = (Ok QR, h1') -> concat truthy P QR h1' = (Ok L', h2') ->
  exists o,
    pipelines h2 !! L = Some o /\ pipelines h2' !! L' = Some o
    /\ actions h2 = actions h /\ actions h2' = actions h.
Proof.
  intros C1 C2 C3 C4.
  apply concat_inv in C1 as (op & oq & EP & EQ & -> & ->).
  apply concat_inv in C3 as (oq' & or & EQ' & ER & -> & ->).
  assert (oq' = oq) as -> by congruence.
  apply concat_inv in C2 as (x & or' & EX & ER' & -> & ->).
  apply concat_inv in C4 as (op' & y & EP' & EY & -> & ->).
  cbn [pipelines actions] in *.
  rewrite lookup_app_r, Nat.sub_diag in EX, EY by lia. cbn in EX, EY.
  rewrite (lookup_app_l_Some _ _ _ _ ER) in ER'.
  rewrite (lookup_app_l_Some _ _ _ _ EP) in EP'. simplify_eq. cbn.
  eexists. split; [by rewrite lookup_app_r, Nat.sub_diag by lia|].
  split; [|done].
  rewrite lookup_app_r, Nat.sub_diag by lia. cbn.
  by rewrite py_or_assoc, app_assoc.
Qed.

(** [self << other]: [other] is a source exactly when it is an instance of
    [Baseset]; anything else is a value. *)
Inductive Operand :=
| ODataset (ds : Dataset)
| OValue (v : PyVal).

Definition __lshift__ (self : addr) (other : Operand) : ST Store addr :=
  match other with
  | OValue _ => raise TypeError
  | ODataset ds =>
      new_p ← from_pipeline self None None;
      o ← get_pipe new_p;
      _ ← set_pipe new_p (mkPipe (Some ds) (_action_list o));
      mret new_p
  end.

Lemma lshift_eq h P o ds :
  pipelines h !! P = Some o ->
  __lshift__ P (ODataset ds) h
  = (Ok (length (pipelines h)),
     mkStore (actions h) (pipelines h ++ [mkPipe (Some ds) (_action_list o)])).
Proof.
  intros E. unfold __lshift__.
  rewrite bind_run, (from_pipeline_copy _ _ _ E), bind_run.
  erewrite get_pipe_eq by (cbn [pipelines]; apply lookup_new_pipe).
  rewrite bind_run, set_pipe_eq. cbn [pipelines actions _action_list].
  unfold mret, ST_ret. do 2 f_equal.
  by rewrite (insert_new_pipe _ _ _ []).
Qed.

(** X6. Rebinding: [P << x] raises TypeError for an [x] that is not a source.
    For a source it returns a new pipeline over P's entries bound to that
    source, while [P] keeps the binding it had. Two pipelines rebound to two
    different sources cannot be concatenated; rebound to the same source they
    always can, whatever they were bound to before. *)
Theorem lshift_rebinds h P Q op oq (s1 s2 : Dataset) :
  pipelines h !! P = Some op -> pipelines h !! Q = Some oq ->
  (forall v, __lshift__ P (OValue v) h = (Raise TypeError, h))
  /\ exists P' Q' h1 h2,
      __lshift__ P (ODataset s1) h = (Ok P', h1)
      /\ __lshift__ Q (ODataset s2) h1 = (Ok Q', h2)
      /\ pipelines h2 !! P' = Some (mkPipe (Some s1) (_action_list op))
      /\ pipelines h2 !! Q' = Some (mkPipe (Some s2) (_action_list oq))
      /\ pipelines h2 !! P = Some op /\ pipelines h2 !! Q = Some oq
      /\ actions h2 = actions h
      /\ (s1 ≠ s2 -> concat truthy P' Q' h2 = (Raise ValueError, h2))
      /\ (s1 = s2 ->
          exists R h3,
            concat truthy P' Q' h2 = (Ok R, h3)
            /\ pipelines h3 !! R
               = Some (mkPipe (Some s1) (_action_list op ++ _action_list oq))).
Proof.
  intros EP EQ. split; [done|].
  set (h1 := mkStore (actions h) (pipelines h ++ [mkPipe (Some s1) (_action_list op)])).
  assert (EQ1 : pipelines h1 !! Q = Some oq) by by apply lookup_app_l_Some.
  eexists _, _, h1, _. split; [by apply lshift_eq|].
  split; [by apply lshift_eq|]. cbn [pipelines actions].
  set (p1 := mkPipe (Some s1) (_action_list op)).
  set (p2 := mkPipe (Some s2) (_action_list oq)).
  assert (E1 : ((pipelines h ++ [p1]) ++ [p2]) !! length (pipelines h) = Some p1).
  { apply lookup_app_l_Some, lookup_new_pipe. }
  assert (E2 : ((pipelines h ++ [p1]) ++ [p2]) !! length (pipelines h ++ [p1]) = Some p2).
  { by rewrite lookup_app_r, Nat.sub_diag by lia. }
  split; [done|]. split; [done|].
  split; [by do 2 apply lookup_app_l_Some|].
  split; [by do 2 apply lookup_app_l_Some|].
  split; [done|].
  set (h2 := mkStore _ _).
  pose proof (concat_eq truthy h2 _ _ p1 p2 E1 E2) as C. cbn [dataset p1 p2] in C.
  split.
  - intros N. etrans; [apply C|].
    by rewrite !bool_decide_eq_true_2 by congruence.
  - intros <-.
    rewrite (bool_decide_eq_false_2 (Some s1 ≠ Some s1)) in C
      by (intros N; by apply N).
    eexists _, _. split; [apply C|]. cbn [pipelines h2].
    rewrite lookup_app_r, Nat.sub_diag by lia. cbn. do 2 f_equal.
    by destruct (truthy s1).
Qed.

(** *** One of probability and repeat count per dict *)

(** No dict of the store carries both a probability and a repeat count. *)
Definition exclusive h : Prop :=
  forall a d, actions h !! a = Some d -> a_proba d = None \/ a_repeat d = None.

Definition keeps {A} (m : ST Store A) : Prop :=
  forall h, exclusive h -> exclusive (m h).2.

Lemma keeps_bind {A B} (m : ST Store A) (k : A -> ST Store B) :
  keeps m -> (forall x, keeps (k x)) -> keeps (x ← m; k x).
Proof.
  intros M K h X. rewrite bind_run. specialize (M h X).
  destruct (m h) as [[x|e] h1]; [by apply K|done].
Qed.

Lemma keeps_same {A} (m : ST Store A) :
  (forall h, actions (m h).2 = actions h) -> keeps m.
Proof. intros S h X a d. rewrite S. apply X. Qed.

Lemma keeps_get_pipe p : keeps (get_pipe p).
Proof. apply keeps_same. intros h. unfold get_pipe. by destruct (_ !! _). Qed.

Lemma keeps_get_action p : keeps (get_action p).
Proof. apply keeps_same. intros h. unfold get_action. by destruct (_ !! _). Qed.

Lemma keeps_new_pipe o : keeps (new_pipe o).
Proof. by apply keeps_same. Qed.

Lemma keeps_set_pipe p o : keeps (set_pipe p o).
Proof. by apply keeps_same. Qed.

Lemma keeps_ret {A} (x : A) : keeps (mret x).
Proof. by apply keeps_same. Qed.

Lemma keeps_raise {A} e : keeps (raise e : ST Store A).
Proof. by apply keeps_same. Qed.

Lemma keeps_lift {A} (r : result A) : keeps (lift r).
Proof. by apply keeps_same. Qed.

Lemma keeps_new_action d :
  a_proba d = None \/ a_repeat d = None -> keeps (new_action d).
Proof.
  intros D h X a d' L. cbn in L.
  apply lookup_app_Some in L as [L|[_ L]]; [by apply (X a)|].
  destruct (a - length (actions h)); cbn in L; by simplify_eq.
Qed.

Lemma keeps_set_action a d :
  a_proba d = None \/ a_repeat d = None -> keeps (set_action a d).
Proof.
  intros D h X a' d' L. cbn in L.
  destruct (decide (a = a')) as [<-|N].
  - destruct (decide (a < length (actions h))).
    + rewrite list_lookup_insert_eq in L by done. by simplify_eq.
    + rewrite list_insert_ge in L by lia. by apply (X a).
  - rewrite list_lookup_insert_ne in L by done. by apply (X a').
Qed.

Lemma keeps_num_actions p : keeps (num_actions p).
Proof. apply keeps_bind; [apply keeps_get_pipe|intros; apply keeps_ret]. Qed.

Lemma keeps_last_action p : keeps (last_action p).
Proof.
  apply keeps_bind; [apply keeps_get_pipe|].
  intros o. destruct (last _); [apply keeps_ret|apply keeps_raise].
Qed.

Lemma keeps_get_last_action_proba p : keeps (get_last_action_proba p).
Proof.
  apply keeps_bind; [apply keeps_last_action|]. intros a.
  apply keeps_bind; [apply keeps_get_action|]. intros; apply keeps_ret.
Qed.

Lemma keeps_get_last_action_repeat p : keeps (get_last_action_repeat p).
Proof.
  apply keeps_bind; [apply keeps_last_action|]. intros a.
  apply keeps_bind; [apply keeps_get_action|]. intros; apply keeps_ret.
Qed.

(** Reading the last action's fields changes nothing and tells what the dict
    holds. *)
Lemma last_field_inv {A} (field : Action -> A) self h r h' :
  (a ← last_action self; d ← get_action a; mret (field d)) h = (r, h') ->
  h' = h
  /\ forall v, r = Ok v ->
       exists a d, last_action self h = (Ok a, h) /\ actions h !! a = Some d
                   /\ field d = v.
Proof.
  rewrite bind_run. unfold last_action at 1. rewrite bind_run. unfold get_pipe.
  destruct (pipelines h !! self) as [o|] eqn:E; [|by intros [= <- <-]].
  destruct (last (_action_list o)) as [a|] eqn:L; [|by intros [= <- <-]].
  cbn [mret ST_ret]. rewrite bind_run. unfold get_action.
  destruct (actions h !! a) as [d|] eqn:D; [|by intros [= <- <-]].
  intros [= <- <-]. split; [done|]. intros v [= <-]. exists a, d.
  split; [|done]. unfold last_action. rewrite bind_run. unfold get_pipe.
  by rewrite E, L.
Qed.

(** The in-place composition of the constructor writes a probability only to
    a dict without repeat count, and a repeat count only to a dict without
    probability. *)
Lemma keeps_set_proba_checked self v :
  keeps (r ← get_last_action_repeat self;
         match r with
         | None => q ← get_last_action_proba self;
                   set_last_action_proba self (mult_option PrimFloat.mul v q)
         | Some _ => mret tt
         end).
Proof.
  intros h X. rewrite bind_run.
  destruct (get_last_action_repeat self h) as [r h1] eqn:R.
  apply (last_field_inv a_repeat) in R as [-> R].
  destruct r as [[?|]|e]; [done| |done].
  destruct (R None eq_refl) as (a & d & La & D & Rn).
  rewrite bind_run.
  destruct (get_last_action_proba self h) as [q h1] eqn:Q.
  apply (last_field_inv a_proba) in Q as [-> Q].
  destruct q as [q|e]; [|done].
  unfold set_last_action_proba. rewrite bind_run, La, bind_run.
  unfold get_action. rewrite D.
  apply keeps_set_action; [|done]. by right.
Qed.

Lemma keeps_set_repeat_checked self v :
  keeps (q ← get_last_action_proba self;
         match q with
         | None => r ← get_last_action_repeat self;
                   set_last_action_repeat self (mult_option Z.mul v r)
         | Some _ => mret tt
         end).
Proof.
  intros h X. rewrite bind_run.
  destruct (get_last_action_proba self h) as [r h1] eqn:R.
  apply (last_field_inv a_proba) in R as [-> R].
  destruct r as [[?|]|e]; [done| |done].
  destruct (R None eq_refl) as (a & d & La & D & Rn).
  rewrite bind_run.
  destruct (get_last_action_repeat self h) as [q h1] eqn:Q.
  apply (last_field_inv a_repeat) in Q as [-> Q].
  destruct q as [q|e]; [|done].
  unfold set_last_action_repeat. rewrite bind_run, La, bind_run.
  unfold get_action. rewrite D.
  apply keeps_set_action; [|done]. by left.
Qed.

Lemma keeps_init ds p pr rp : keeps (__init__ ds p pr rp).
Proof.
  unfold __init__. destruct p as [p|]; [|apply keeps_new_pipe].
  apply keeps_bind; [apply keeps_get_pipe|]. intros o.
  apply keeps_bind; [apply keeps_new_pipe|]. intros self.
  apply keeps_bind; [apply keeps_num_actions|]. intros n.
  apply keeps_bind; [|intros; apply keeps_ret].
  destruct (n =? 1); [|apply keeps_ret].
  destruct pr as [pr|]; [apply keeps_set_proba_checked|].
  destruct rp as [rp|]; [apply keeps_set_repeat_checked|apply keeps_ret].
Qed.

Lemma keeps_append_pipeline self p pr rp :
  pr = None \/ rp = None -> keeps (append_pipeline self p pr rp).
Proof.
  intros D. apply keeps_bind; [by apply keeps_new_action|]. intros a.
  apply keeps_bind; [apply keeps_get_pipe|]. intros; apply keeps_set_pipe.
Qed.

Lemma keeps_from_pipeline p pr rp : keeps (from_pipeline p pr rp).
Proof.
  unfold from_pipeline. destruct pr as [pr|].
  - apply keeps_bind; [apply keeps_num_actions|]. intros n.
    apply keeps_bind.
    { destruct (n =? 1); [|apply keeps_ret].
      apply keeps_bind; [apply keeps_get_last_action_repeat|]. intros; apply keeps_ret. }
    intros [|]; [apply keeps_init|].
    apply keeps_bind; [apply keeps_init|]. intros new_p.
    apply keeps_bind; [apply keeps_append_pipeline; by right|]. intros; apply keeps_ret.
  - destruct rp as [rp|]; [|apply keeps_init].
    apply keeps_bind; [apply keeps_num_actions|]. intros n.
    apply keeps_bind.
    { destruct (n =? 1); [|apply keeps_ret].
      apply keeps_bind; [apply keeps_get_last_action_proba|]. intros; apply keeps_ret. }
    intros [|]; [apply keeps_init|].
    apply keeps_bind; [apply keeps_init|]. intros new_p.
    apply keeps_bind; [apply keeps_append_pipeline; by left|]. intros; apply keeps_ret.
Qed.

Lemma keeps_concat P Q : keeps (concat truthy P Q).
Proof.
  unfold concat.
  apply keeps_bind; [apply keeps_get_pipe|]. intros o1.
  apply keeps_bind; [apply keeps_get_pipe|]. intros o2.
  destruct (_ && _); [apply keeps_raise|].
  apply keeps_bind; [apply keeps_from_pipeline|]. intros n1.
  apply keeps_bind; [apply keeps_from_pipeline|]. intros n2.
  repeat (apply keeps_bind; [first [apply keeps_get_pipe|apply keeps_set_pipe]|intros ?]).
  apply keeps_ret.
Qed.

Lemma keeps_append_action self args kwargs : keeps (append_action self args kwargs).
Proof.
  unfold append_action.
  apply keeps_bind; [apply keeps_last_action|]. intros a.
  apply keeps_bind; [apply keeps_get_action|]. intros d.
  apply keeps_bind; [apply keeps_set_action; by left|]. intros _.
  apply keeps_bind; [apply keeps_from_pipeline|]. intros new_p.
  apply keeps_bind; [apply keeps_get_pipe|]. intros o.
  apply keeps_bind; [apply keeps_set_pipe|]. intros; apply keeps_ret.
Qed.

Lemma keeps_push_action self d :
  a_proba d = None \/ a_repeat d = None -> keeps (push_action self d).
Proof.
  intros D. apply keeps_bind; [by apply keeps_new_action|]. intros a.
  apply keeps_bind; [apply keeps_get_pipe|]. intros; apply keeps_set_pipe.
Qed.

(** X7. The operators never leave a dict with both a probability and a repeat
    count: if no dict of the store carries both, then after [P + x], [P @ x],
    [P * x], [P << x], an attribute call [P.name(...)], [P.join(...)], or the
    constructor, called on any arguments and whether they return or raise,
    still no dict carries both. *)
Theorem operators_keep_exclusive h :
  exclusive h ->
  (forall P x, exclusive (__add__ truthy P x h).2)
  /\ (forall P x, exclusive (__matmul__ P x h).2)
  /\ (forall P x, exclusive (__mul__ P x h).2)
  /\ (forall P x, exclusive (__lshift__ P x h).2)
  /\ (forall P name args kwargs,
        exclusive (__getattr__ is_batch_method P name args kwargs h).2)
  /\ (forall P sets, exclusive (join P sets h).2)
  /\ (forall ds p pr rp, exclusive (__init__ ds p pr rp h).2).
Proof.
  intros X. repeat split; intros.
  - revert h X. change (keeps (__add__ truthy P x)). unfold __add__.
    destruct x; try apply keeps_raise.
    apply keeps_bind; [apply keeps_num_actions|]. intros n.
    destruct (0 <? n); [apply keeps_concat|apply keeps_ret].
  - revert h X. change (keeps (__matmul__ P x)). unfold __matmul__.
    apply keeps_bind; [apply keeps_num_actions|]. intros n.
    destruct (n =? 0); [apply keeps_raise|].
    destruct (_ && _); [apply keeps_raise|].
    apply keeps_bind; [apply keeps_lift|]. intros i.
    apply keeps_bind; [|intros; apply keeps_from_pipeline].
    destruct (negb _); [|apply keeps_ret].
    apply keeps_bind; [apply keeps_lift|]. intros; apply keeps_ret.
  - revert h X. change (keeps (__mul__ P x)). unfold __mul__.
    apply keeps_bind; [apply keeps_lift|]. intros [|]; [apply keeps_raise|].
    destruct (isinstance_float x); [apply keeps_raise|].
    destruct x; first [apply keeps_raise|apply keeps_from_pipeline].
  - revert h X. change (keeps (__lshift__ P x)). unfold __lshift__.
    destruct x; [|apply keeps_raise].
    apply keeps_bind; [apply keeps_from_pipeline|]. intros new_p.
    apply keeps_bind; [apply keeps_get_pipe|]. intros o.
    apply keeps_bind; [apply keeps_set_pipe|]. intros; apply keeps_ret.
  - revert h X. change (keeps (__getattr__ is_batch_method P name args kwargs)).
    unfold __getattr__. destruct (is_batch_method name); [|apply keeps_raise].
    apply keeps_bind; [apply keeps_push_action; by left|].
    intros; apply keeps_append_action.
  - revert h X. change (keeps (join P sets)). unfold join.
    apply keeps_bind; [apply keeps_push_action; by left|].
    intros; apply keeps_append_action.
  - by apply keeps_init.
Qed.

End Composition.

(** ** Further properties of the sequential executor *)

Section Execution.

Context {Dataset : Type} `{EqDecision Dataset}.
Variable truthy : Dataset -> bool.
Variable is_batch_method : string -> bool.
Context {Batch Index : Type}.
Variable index : Batch -> Index.
Variable create_batch : Dataset -> Index -> Batch.
Variable call_action :
  Batch -> string -> list (@Arg Batch) -> list (string * PyVal) -> result Batch.
Context {Rng : Type}.
Variable binomial : Z -> float -> Rng -> result Z * Rng.

Implicit Types (h : @Store Dataset) (o : @PipeObj Dataset) (d : @Action Dataset).
Implicit Types (s : @ExecSt Batch Rng) (b : Batch).

Lemma exec_eq h depth P o b s :
  pipelines h !! P = Some o ->
  _exec index create_batch call_action binomial h (S depth) P b s
  = exec_loop index create_batch call_action binomial h
      (_exec_all_actions index create_batch call_action binomial h depth P)
      None b (_action_list o) s.
Proof. intros E. unfold _exec. cbn [_exec_all_actions]. by rewrite E. Qed.

(** At the recursion limit the executor raises; an empty list passed to it
    stands for the pipeline's own list. *)
Lemma exec_limit h P b s :
  _exec index create_batch call_action binomial h 0 P b s = (Raise RecursionError, s).
Proof. reflexivity. Qed.

Lemma exec_all_nil h depth P o b s :
  pipelines h !! P = Some o ->
  _exec_all_actions index create_batch call_action binomial h (S depth) P b [] s
  = _exec index create_batch call_action binomial h (S depth) P b s.
Proof. reflexivity. Qed.

Lemma exec_all_eq h depth P b l s :
  l ≠ [] ->
  _exec_all_actions index create_batch call_action binomial h (S depth) P b l s
  = exec_loop index create_batch call_action binomial h
      (_exec_all_actions index create_batch call_action binomial h depth P)
      None b l s.
Proof. intros N. cbn [_exec_all_actions]. by destruct l. Qed.

Lemma exec_all_self h depth P b s :
  _exec_all_actions index create_batch call_action binomial h depth P b [] s
  = _exec index create_batch call_action binomial h depth P b s.
Proof. reflexivity. Qed.

Lemma rounds_succ n : (0 <= n)%Z -> exists k, rounds (Some n) = S k.
Proof.
  intros N. destruct n as [|p|p]; [by exists 0| |lia].
  exists (Nat.pred (Pos.to_nat p)). cbn. lia.
Qed.

Lemma rounds_pos n : (0 < n)%Z -> rounds (Some n) = Z.to_nat n.
Proof. by destruct n. Qed.

Lemma for_range_raise {St A} (body : A -> ST St A) k x (st st' : St) e :
  body x st = (Raise e, st') -> for_range (S k) body x st = (Raise e, st').
Proof. intros B. cbn [for_range]. by rewrite bind_run, B. Qed.

(** A nested entry without probability starts its first round. *)
Lemma exec_nested_first h ea b d p o s e s' :
  a_proba d = None -> (exists k, rounds (a_repeat d) = S k) ->
  a_pipeline d = Some p -> pipelines h !! p = Some o ->
  ea b (_action_list o) s = (Raise e, s') ->
  _exec_nested_pipeline (Batch:=Batch) binomial h ea b d s = (Raise e, s').
Proof.
  intros Pn [k Rk] Ap Ep X. unfold _exec_nested_pipeline, _needs_exec.
  rewrite Pn, ret_bind_run, Rk. apply for_range_raise. by rewrite Ap, Ep.
Qed.

(** The executor's loop does the same on two tails that it treats alike. *)
Lemma exec_loop_congr h ea (X Y : list addr) :
  (forall js b s,
      exec_loop index create_batch call_action binomial h ea js b X s
      = exec_loop index create_batch call_action binomial h ea js b Y s) ->
  forall l js b s,
    exec_loop index create_batch call_action binomial h ea js b (l ++ X) s
    = exec_loop index create_batch call_action binomial h ea js b (l ++ Y) s.
Proof.
  intros XY. induction l as [|a l IH]; intros js b s; [apply XY|].
  cbn [app exec_loop]. destruct (actions h !! a) as [d|]; [|done].
  destruct (String.eqb (a_name d) JOIN_ID).
  { destruct (a_datasets d); [apply IH|done]. }
  destruct (String.eqb (a_name d) PIPELINE_ID);
    apply bind_ext_run; intros; apply IH.
Qed.

(** Repeating a call that always succeeds: the rounds are chained, each on the
    batch the round before returned. *)
Lemma for_range_invoke name args kwargs (f : Batch -> Batch) :
  (forall x, call_action x name args kwargs = Ok (f x)) ->
  forall n b s,
    for_range n (fun x => invoke call_action x name args kwargs) b s
    = (Ok (Nat.iter n f b),
       mkExecSt (rng s)
         (calls s ++ map (fun i => mkCall (Nat.iter i f b) name args kwargs)
                         (seq 0 n))).
Proof.
  intros F. induction n as [|n IH]; intros b s.
  - cbn. rewrite app_nil_r. by destruct s.
  - cbn [for_range]. rewrite bind_run. unfold invoke at 1. rewrite F, IH.
    cbn [rng calls]. f_equal; [by rewrite Nat.iter_succ_r|]. f_equal.
    rewrite <- app_assoc. f_equal. cbn [seq map app Nat.iter]. f_equal.
    rewrite <- seq_shift, map_map. apply map_ext. intros i.
    by rewrite Nat.iter_succ_r.
Qed.

(** Without probabilities the executor asks nothing of the random generator:
    [_needs_exec] draws only for a dict that carries a probability, so the
    run is the same whatever [np.random.binomial] would give. *)
Lemma for_range_ext {St A} (f g : A -> ST St A) :
  (forall x st, f x st = g x st) ->
  forall n x st, for_range n f x st = for_range n g x st.
Proof.
  intros FG. induction n as [|n IH]; intros x st; [done|].
  cbn [for_range]. rewrite !bind_run, FG. by destruct (g x st) as [[y|e] st1].
Qed.

Lemma exec_loop_no_draw (binomial' : Z -> float -> Rng -> result Z * Rng) h ea ea' :
  (forall a d, actions h !! a = Some d -> a_proba d = None) ->
  (forall b l s, ea b l s = ea' b l s) ->
  forall l js b s,
    exec_loop index create_batch call_action binomial h ea js b l s
    = exec_loop index create_batch call_action binomial' h ea' js b l s.
Proof.
  intros NP EA. induction l as [|a l IH]; intros js b s; [done|].
  cbn [exec_loop]. destruct (actions h !! a) as [d|] eqn:D; [|done].
  specialize (NP _ _ D).
  destruct (String.eqb (a_name d) JOIN_ID).
  { destruct (a_datasets d); [apply IH|done]. }
  destruct (String.eqb (a_name d) PIPELINE_ID).
  - rewrite !bind_run.
    assert (N : _exec_nested_pipeline binomial h ea b d s
                = _exec_nested_pipeline binomial' h ea' b d s).
    { unfold _exec_nested_pipeline, _needs_exec. rewrite NP, !ret_bind_run.
      apply for_range_ext. intros x s1.
      destruct (a_pipeline d) as [p|]; [|done].
      destruct (pipelines h !! p); [apply EA|done]. }
    rewrite N. clear N.
    destruct (_exec_nested_pipeline binomial' _ _ _ _ _) as [[b'|e] s1];
      [apply IH|done].
  - rewrite !bind_run.
    match goal with |- context [_exec_one_action call_action binomial ?x ?y ?z ?w s] =>
      assert (N : _exec_one_action call_action binomial x y z w s
                  = _exec_one_action call_action binomial' x y z w s) end.
    { unfold _exec_one_action, _needs_exec. by rewrite NP. }
    rewrite N. clear N.
    destruct (_exec_one_action _ binomial' _ _ _ _ _) as [[b'|e] s1];
      [apply IH|done].
Qed.

Lemma exec_all_no_draw (binomial' : Z -> float -> Rng -> result Z * Rng) h :
  (forall a d, actions h !! a = Some d -> a_proba d = None) ->
  forall depth self b l s,
    _exec_all_actions index create_batch call_action binomial h depth self b l s
    = _exec_all_actions index create_batch call_action binomial' h depth self b l s.
Proof.
  intros NP depth. induction depth as [|depth IH]; intros self b l s; [done|].
  cbn [_exec_all_actions]. destruct l.
  - destruct (pipelines h !! self); [|done]. apply exec_loop_no_draw; [done|apply IH].
  - apply exec_loop_no_draw; [done|apply IH].
Qed.

(** X14. A store in which no dict carries a probability is executed without
    a draw by the executor: whatever pipeline and batch, the run (what it
    returns or raises, the calls it makes, the generator state it leaves) is
    the same for every behaviour of [np.random.binomial]. *)
Theorem exec_without_proba_draws_nothing h
    (binomial' : Z -> float -> Rng -> result Z * Rng) :
  (forall a d, actions h !! a = Some d -> a_proba d = None) ->
  forall depth P b s,
    _exec index create_batch call_action binomial h depth P b s
    = _exec index create_batch call_action binomial' h depth P b s.
Proof. intros NP depth P b s. by apply exec_all_no_draw. Qed.

Lemma exec_loop_nil h ea js b s :
  exec_loop index create_batch call_action binomial h ea js b [] s = (Ok b, s).
Proof. reflexivity. Qed.

(** An action without probability runs its rounds. *)
Lemma exec_one_action_rounds b d args kwargs s :
  a_proba d = None ->
  _exec_one_action call_action binomial b d args kwargs s
  = for_range (rounds (a_repeat d))
      (fun x => invoke call_action x (a_name d) args kwargs) b s.
Proof.
  intros Pn. unfold _exec_one_action, _needs_exec. by rewrite Pn, ret_bind_run.
Qed.

(** One action with a probability: one draw decides whether it is called. *)
Lemma exec_one_action_proba b d p args kwargs s :
  a_proba d = Some p -> rounds (a_repeat d) = 1 ->
  _exec_one_action call_action binomial b d args kwargs s
  = match binomial 1 p (rng s) with
    | (Ok x, g) =>
        if (x =? 1)%Z
        then invoke call_action b (a_name d) args kwargs (mkExecSt g (calls s))
        else (Ok b, mkExecSt g (calls s))
    | (Raise e, g) => (Raise e, mkExecSt g (calls s))
    end.
Proof.
  intros Pp R1. unfold _exec_one_action, _needs_exec. rewrite Pp, R1.
  rewrite bind_assoc_run, bind_run. unfold np_random_binomial.
  destruct (binomial 1 p (rng s)) as [[x|e] g]; [|done].
  rewrite ret_bind_run. destruct (x =? 1)%Z; [|done].
  cbn [for_range]. rewrite bind_run.
  by destruct (invoke _ _ _ _ _ _) as [[?|?] ?].
Qed.

#[local] Abbreviation exec_loop :=
  (exec_loop index create_batch call_action binomial).
#[local] Abbreviation _exec_all_actions :=
  (_exec_all_actions index create_batch call_action binomial).
#[local] Abbreviation _exec := (_exec index create_batch call_action binomial).
#[local] Abbreviation _exec_one_action := (_exec_one_action call_action binomial).
#[local] Abbreviation invoke := (invoke call_action).






(** X10. The repeat operator has no check for an empty pipeline: [E * n] wraps
    the empty [E] into a nested-pipeline entry of a new pipeline [R]. When
    [R] runs, the executor is handed E's empty list, takes R's own list in
    its place, and so enters the same entry again: whatever the recursion
    limit, the run ends in RecursionError, with no action called. *)
Theorem mul_empty_recursion h E o n :
  pipelines h !! E = Some o -> _action_list o = [] -> (0 <= n)%Z ->
  exists R h',
    __mul__ E (VInt n) h = (Ok R, h')
    /\ forall depth b s, _exec h' depth R b s = (Raise RecursionError, s).
Proof.
  intros EE L N. eexists _, _. split.
  { rewrite mul_int by done. apply (from_pipeline_repeat_nested _ _ _ _ EE).
    by rewrite L. }
  set (dn := mkAction PIPELINE_ID [] [] None (Some n) (Some E) None : @Action Dataset).
  set (h' := mkStore _ _).
  assert (ER : pipelines h' !! length (pipelines h)
               = Some (mkPipe None [length (actions h)])) by apply lookup_new_pipe.
  assert (EE' : pipelines h' !! E = Some o) by by apply lookup_app_l_Some.
  assert (Dn : is_nested h' (length (actions h))).
  { exists dn. split; [|done]. by apply list_lookup_middle. }
  intros depth. induction depth as [|depth IH]; intros b s; [apply exec_limit|].
  rewrite (exec_eq _ _ _ _ _ _ ER). cbn [_action_list].
  destruct (exec_loop_nested index create_batch call_action binomial h'
              (_exec_all_actions h' depth (length (pipelines h))) None b
              (length (actions h)) [] s Dn) as (d & D & X).
  etrans; [exact X|]. clear X.
  assert (d = dn) as ->.
  { assert (H0 : actions h' !! length (actions h) = Some dn)
      by by apply list_lookup_middle.
    unfold addr in D. rewrite H0 in D. by injection D. }
  rewrite bind_run.
  rewrite (exec_nested_first h' _ b dn E o s RecursionError s); try done.
  - by apply rounds_succ.
  - rewrite L, exec_all_self. apply IH.
Qed.

(** X11. A join marker that no ordinary action follows has no effect, and of
    two markers with only nested pipelines between them the second one
    counts: the executor runs a list that ends with a marker as it runs the
    list without it, and a list with a marker that another marker follows
    before any ordinary action as it runs the list without the first. *)
Theorem join_marker_without_effect h ea :
  (forall js b l j sets s,
      is_join h j sets ->
      exec_loop h ea js b (l ++ [j]) s = exec_loop h ea js b l s)
  /\ (forall js b l1 j1 sets1 mid j2 sets2 l2 s,
      is_join h j1 sets1 -> Forall (is_nested h) mid -> is_join h j2 sets2 ->
      exec_loop h ea js b (l1 ++ j1 :: mid ++ j2 :: l2) s
      = exec_loop h ea js b (l1 ++ mid ++ j2 :: l2) s).
Proof.
  split.
  - intros js b l j sets s J.
    rewrite (exec_loop_join_split _ _ _ _ _ _ _ _ _ _ sets) by done.
    apply bind_ret_run.
  - intros js b l1 j1 sets1 mid j2 sets2 l2 s J1 M J2.
    apply exec_loop_congr. clear js b s. intros js b s.
    rewrite (exec_loop_join _ _ _ _ _ _ _ _ _ sets1) by done.
    rewrite !exec_loop_nested_split by done.
    apply bind_ext_run. intros b1 s1.
    by rewrite !(exec_loop_join _ _ _ _ _ _ _ _ _ sets2).
Qed.


(** X13. [P * n] for a single action without probability or repeat count and
    an int n > 0 whose method always succeeds: executing the result calls the
    action exactly n times, the first time on the input batch and each next
    time on the batch the call before returned, and returns the last result. *)
Theorem repeat_applies_n_times h P o a d n (f : Batch -> Batch) :
  pipelines h !! P = Some o -> _action_list o = [a] -> actions h !! a = Some d ->
  a_proba d = None -> a_repeat d = None ->
  a_name d ≠ JOIN_ID -> a_name d ≠ PIPELINE_ID -> (0 < n)%Z ->
  (forall x, call_action x (a_name d) (map AVal (a_args d)) (a_kwargs d) = Ok (f x)) ->
  exists R h',
    __mul__ P (VInt n) h = (Ok R, h')
    /\ forall depth b s,
        _exec h' (S depth) R b s
        = (Ok (Nat.iter (Z.to_nat n) f b),
           mkExecSt (rng s)
             (calls s
              ++ map (fun i => mkCall (Nat.iter i f b) (a_name d)
                                 (map AVal (a_args d)) (a_kwargs d))
                     (seq 0 (Z.to_nat n)))).
Proof.
  intros E L D Pn Rn N1 N2 N F.
  pose proof (lookup_lt_Some _ _ _ D) as Ha.
  eexists _, _. split.
  { rewrite mul_int by lia. by apply (from_pipeline_repeat_single _ _ _ _ _ _ E L D). }
  rewrite Rn. cbn [mult_option].
  set (d' := with_repeat d (Some n)). set (h' := mkStore _ _).
  assert (O' : is_ordinary h' a d').
  { split; [|done]. by apply list_lookup_insert_eq. }
  intros depth b s.
  rewrite (exec_eq h' _ _ (mkPipe (dataset o) [a])) by apply lookup_new_pipe.
  cbn [_action_list].
  rewrite (exec_loop_ordinary _ _ _ _ _ _ _ _ _ d') by done.
  rewrite bind_run, exec_one_action_rounds by done.
  change (a_repeat d') with (Some n). rewrite rounds_pos by done.
  change (a_name d') with (a_name d). change (a_args d') with (a_args d).
  change (a_kwargs d') with (a_kwargs d).
  by rewrite (for_range_invoke _ _ _ f F), exec_loop_nil.
Qed.

(** X15. [P @ p] for a single action without probability or repeat count and
    a float p strictly between 0 and 1: executing the result makes one draw
    [binomial(1, p)]; when the draw is 1 the action is called once, otherwise
    the batch is returned as it is and nothing is called. *)
Theorem proba_gate h P o a d p :
  pipelines h !! P = Some o -> _action_list o = [a] -> actions h !! a = Some d ->
  a_proba d = None -> a_repeat d = None ->
  a_name d ≠ JOIN_ID -> a_name d ≠ PIPELINE_ID ->
  (0 <? p)%float = true -> (p <? 1)%float = true ->
  exists R h',
    __matmul__ P (VFloat p) h = (Ok R, h')
    /\ forall depth b s,
        _exec h' (S depth) R b s
        = match binomial 1 p (rng s) with
          | (Ok x, g) =>
              if (x =? 1)%Z
              then invoke b (a_name d) (map AVal (a_args d)) (a_kwargs d)
                     (mkExecSt g (calls s))
              else (Ok b, mkExecSt g (calls s))
          | (Raise e, g) => (Raise e, mkExecSt g (calls s))
          end.
Proof.
  intros E L D Pn Rn N1 N2 P0 P1.
  pose proof (lookup_lt_Some _ _ _ D) as Ha.
  assert (Lne : _action_list o ≠ []) by by rewrite L.
  eexists _, _. split.
  { rewrite (matmul_float _ _ _ _ _ E Lne (int_of_float_unit _ P0 P1)).
    cbn [Z.eqb]. by apply (from_pipeline_proba_single _ _ _ _ _ _ E L D). }
  rewrite Pn. cbn [mult_option].
  set (d' := with_proba d (Some p)). set (h' := mkStore _ _).
  assert (O' : is_ordinary h' a d').
  { split; [|done]. by apply list_lookup_insert_eq. }
  intros depth b s.
  rewrite (exec_eq h' _ _ (mkPipe (dataset o) [a])) by apply lookup_new_pipe.
  cbn [_action_list].
  rewrite (exec_loop_ordinary _ _ _ _ _ _ _ _ _ d') by done.
  rewrite bind_run, (exec_one_action_proba _ d' p) by (done || by subst d'; cbn; rewrite Rn).
  change (a_name d') with (a_name d). change (a_args d') with (a_args d).
  change (a_kwargs d') with (a_kwargs d).
  destruct (binomial 1 p (rng s)) as [[x|e] g]; [|done].
  destruct (x =? 1)%Z; [|done].
  by destruct (invoke _ _ _ _ _) as [[?|?] ?].
Qed.

End Execution.

(** ** Further properties of the prefetch engine *)

Section EngineBounds.

Context {Batch : Type}.
Variable exec : Batch -> result Batch.
Variable is_none : Batch -> bool.

Implicit Types (s : @Run Batch) (q : list (option (@Future Batch))).

(** *** Without prefetch *)

Definition delivered (r : result Batch) : option Batch :=
  match r with Ok b => Some b | Raise _ => None end.

(** X16. The generator without prefetch, on batches that succeed or raise the
    Skip signal: it yields the results of exactly the batches that succeed,
    in generation order, and ends normally; and a batch after them that
    raises anything else ends the iteration with that exception, after the
    same results and before any later batch is executed. *)
Theorem inline_skips_exactly pre :
  Forall (fun b => exec b = Raise SkipBatchException \/ succeeds exec b) pre ->
  gen_batch_inline exec pre = (omap (fun b => delivered (exec b)) pre, None)
  /\ forall b e post,
      exec b = Raise e -> e ≠ SkipBatchException ->
      gen_batch_inline exec (pre ++ b :: post)
      = (omap (fun b => delivered (exec b)) pre, Some e).
Proof.
  induction pre as [|a pre IH]; intros F.
  - split; [done|]. intros b e post B N. cbn. rewrite B. by destruct e.
  - apply Forall_cons in F as [A F]. destruct (IH F) as [I1 I2]. split.
    + cbn. destruct A as [A|[r A]]; rewrite A; cbn; by rewrite I1.
    + intros b e post B N. cbn [app gen_batch_inline omap list_omap].
      destruct A as [A|[r A]]; rewrite A; cbn; by rewrite (I2 b e post B N).
Qed.

(** *** Every run is finite and delivers in one order *)

(** X17. A prefetch run cannot go on for ever: whatever the action chain does
    on the batches, every schedule of the threads from the start of a run
    over n batches has at most 12 n + 12 steps. *)
Theorem every_run_is_bounded k target gen s0 sched s :
  0 < k -> gen_batch_prefetch k target gen = Ok s0 ->
  run exec is_none sched s0 = Some s ->
  length sched <= 12 * length gen + 12.
Proof.
  intros K G R. apply gen_batch_prefetch_inv in G as (pl & -> & _).
  apply run_potential in R. unfold potential in R at 2. cbn in R. lia.
Qed.

(** X18. What a prefetch run delivers does not depend on the schedule: of the
    sequences yielded in any two runs from the same start, under any two
    schedules and orders of completion of the workers, one is a prefix of the
    other; both are prefixes of what the consumer's loop puts when it is run
    over the outcomes of the batches in generation order. *)
Theorem delivery_is_schedule_independent k target gen s0 sched1 s1 sched2 s2 :
  0 < k -> gen_batch_prefetch k target gen = Ok s0 ->
  run exec is_none sched1 s0 = Some s1 -> run exec is_none sched2 s0 = Some s2 ->
  (yielded s1 `prefix_of` yielded s2 \/ yielded s2 `prefix_of` yielded s1)
  /\ yielded s1 `prefix_of` consume false None (map exec gen)
  /\ yielded s2 `prefix_of` consume false None (map exec gen).
Proof.
  intros K G R1 R2. apply gen_batch_prefetch_inv in G as (pl & -> & _).
  assert (P : forall sched s,
             run exec is_none sched
               (mkRun false gen [] 0 0 [] [] PLoop CLoop false None MLoop []
                      (Nat.min k 62) pl) = Some s ->
             yielded s `prefix_of` consume false None (map exec gen)).
  { intros sched s R. etrans; [apply (yielded_plan exec)|].
    etrans; [by eapply run_plan|]. by rewrite plan_start. }
  split; [|split]; [|by eapply P|by eapply P].
  eapply prefix_weak_total; by eapply P.
Qed.

(** *** Queues, tokens and workers *)


















(** *** When the first batch fails *)

(** Where the first task is on its way to the consumer. *)
Inductive crash_stage :=
| AtSource
| AtProducer
| AtQueue
| AtResult
| AtFinally
| Crashed.

Definition waiting (pc : @consumer_pc Batch) : Prop := pc = CLoop \/ pc = CGet.

Definition crash_stage_ok (st : crash_stage) (b : Batch) s : Prop :=
  match st with
  | AtSource =>
      (exists post, source s = b :: post) /\ prefetch_queue s = []
      /\ waiting (consumer s)
      /\ (producer s = PLoop /\ prefetch_count s = 0
          \/ producer s = PToken /\ prefetch_count s = 0
          \/ producer s = PNext)
  | AtProducer =>
      (exists f, producer s = PPut f /\ f_batch f = b) /\ prefetch_queue s = []
      /\ waiting (consumer s)
  | AtQueue =>
      (exists f q, prefetch_queue s = Some f :: q /\ f_batch f = b)
      /\ waiting (consumer s)
  | AtResult => exists f, consumer s = CResult f /\ f_batch f = b
  | AtFinally => consumer s = CFinally
  | Crashed => consumer s = CCrashed UnboundLocalError
  end.

Record doomed (b : Batch) s : Prop := mkDoomed {
  dm_depth : 0 < depth s;
  dm_stop : stop_flag s = false;
  dm_skip : skip_batch s = false;
  dm_batch : batch s = None;
  dm_queue : batch_queue s = [];
  dm_out : yielded s = [];
  dm_main : main s = MLoop \/ main s = MGet;
  dm_stage : exists st, crash_stage_ok st b s;
}.

Ltac at_stage st := exists st; cbn; by eauto 10.

Lemma doomed_step b e t s s' :
  exec b = Raise e -> e ≠ SkipBatchException ->
  doomed b s -> step exec is_none t s = Some s' -> doomed b s'.
Proof.
  intros B N.
  destruct s as [stop src rn sub cnt fq bq p c skip bt m out d pl].
  intros [Hd Hs Hk Hb Hq Ho Hm [st Hst]]. cbn in Hd, Hs, Hk, Hb, Hq, Ho, Hm.
  subst stop skip bt bq out.
  destruct t as [| | |id]; cbn [step].
  - unfold step_producer, count_maxsize, queue_maxsize. cbn -[Nat.ltb Nat.add].
    intros E. destruct st; cbn in Hst; unfold waiting in Hst.
    + destruct Hst as ([post ->] & -> & W & [[-> ->]|[[-> ->]| ->]]);
        repeat case_match; simplify_eq; split; cbn; try done;
        first [at_stage AtSource | at_stage AtProducer].
    + destruct Hst as ((f & -> & F) & -> & W).
      repeat case_match; simplify_eq; split; cbn; try done. at_stage AtQueue.
    + destruct Hst as ((f & q & -> & F) & W).
      destruct p; repeat case_match; simplify_eq; split; cbn; try done;
        at_stage AtQueue.
    + destruct p; repeat case_match; simplify_eq; split; cbn; try done;
        at_stage AtResult.
    + destruct p; repeat case_match; simplify_eq; split; cbn; try done;
        at_stage AtFinally.
    + destruct p; repeat case_match; simplify_eq; split; cbn; try done;
        at_stage Crashed.
  - unfold step_consumer, batch_maxsize. cbn -[Nat.ltb Nat.add].
    intros E. destruct st; cbn in Hst; unfold waiting in Hst.
    + destruct Hst as (S & -> & [-> | ->] & P);
        repeat case_match; simplify_eq; split; cbn; try done;
        exists AtSource; cbn; unfold waiting; by eauto 10.
    + destruct Hst as (P & -> & [-> | ->]);
        repeat case_match; simplify_eq; split; cbn; try done;
        exists AtProducer; cbn; unfold waiting; by eauto 10.
    + destruct Hst as ((f & q & -> & F) & [-> | ->]);
        repeat case_match; simplify_eq; split; cbn; try done.
      * exists AtQueue; cbn; unfold waiting; by eauto 10.
      * at_stage AtResult.
    + destruct Hst as (f & -> & F). rewrite F, B in E.
      repeat case_match; simplify_eq; split; cbn; try done; at_stage AtFinally.
    + rewrite Hst in E. simplify_eq. split; cbn; try done. at_stage Crashed.
    + rewrite Hst in E. done.
  - unfold step_main. cbn. intros E.
    destruct Hm as [-> | ->]; simplify_eq; split; cbn; auto;
      exists st; destruct st; exact Hst.
  - unfold step_worker. cbn. case_bool_decide; [|done]. intros [= <-].
    split; cbn; try done. exists st; destruct st; exact Hst.
Qed.

Lemma doomed_run b e sched : forall s s',
  exec b = Raise e -> e ≠ SkipBatchException ->
  doomed b s -> run exec is_none sched s = Some s' -> doomed b s'.
Proof.
  induction sched as [|t sched IH]; intros s s' B N D R; cbn in R; [by simplify_eq|].
  destruct (step exec is_none t s) as [s1|] eqn:E; [|done].
  eapply IH; [done|done| |exact R]. by eapply doomed_step.
Qed.

(** Before the consumer has crashed some thread can always move. *)
Lemma doomed_progress b s :
  doomed b s ->
  consumer s = CCrashed UnboundLocalError \/ exists t s', step exec is_none t s = Some s'.
Proof.
  destruct s as [stop src rn sub cnt fq bq p c skip bt m out d pl].
  intros [Hd Hs Hk Hb Hq Ho Hm [st Hst]].
  cbn in Hd, Hs, Hk, Hb, Hq, Ho, Hm. subst stop skip bt bq out.
  destruct st; cbn in Hst; unfold waiting in Hst; [right..|by left].
  - destruct Hst as ([post ->] & -> & W & [[-> ->]|[[-> ->]| ->]]);
      exists Producer; cbn [step]; unfold step_producer, count_maxsize;
      cbn -[Nat.ltb];
      [by eexists| |by eexists].
    destruct (Nat.ltb_spec 0 (d + 1)); [by eexists|lia].
  - destruct Hst as ((f & -> & F) & -> & W).
    exists Producer; cbn [step]; unfold step_producer, queue_maxsize;
      cbn -[Nat.ltb].
    destruct (Nat.ltb_spec 0 d); [by eexists|lia].
  - destruct Hst as ((f & q & -> & F) & [-> | ->]);
      exists Consumer; cbn; unfold step_consumer; cbn; by eexists.
  - destruct Hst as (f & -> & F).
    destruct (decide (f_id f ∈ rn)) as [I|I].
    + exists (Worker (f_id f)). cbn. unfold step_worker. cbn.
      rewrite bool_decide_eq_true_2 by done. by eexists.
    + exists Consumer. cbn. unfold step_consumer. cbn.
      rewrite bool_decide_eq_false_2 by done.
      destruct (exec (f_batch f)) as [?|[]]; by eexists.
  - subst c. exists Consumer. cbn. unfold step_consumer. cbn. by eexists.
Qed.

(** X20. A prefetch run whose first batch raises an exception other than the
    Skip signal: the consumer thread reaches its [finally] clause with
    [batch] unbound and dies of UnboundLocalError. Under every schedule the
    run yields no batch and never reaches its end, and once no thread can move
    the consumer is dead and the generator waits for a batch that no one will
    put. *)
Theorem first_batch_failure_stops_delivery k target b post e s0 sched s :
  0 < k -> exec b = Raise e -> e ≠ SkipBatchException ->
  gen_batch_prefetch k target (b :: post) = Ok s0 ->
  run exec is_none sched s0 = Some s ->
  yielded s = [] /\ main s ≠ MDone /\ consumer s ≠ CDone
  /\ (stuck exec is_none s -> consumer s = CCrashed UnboundLocalError /\ main s = MGet).
Proof.
  intros K B N G R. apply gen_batch_prefetch_inv in G as (pl & -> & _).
  assert (D : doomed b s).
  { eapply doomed_run; [exact B|exact N| |exact R].
    split; cbn; auto; [lia|]. exists AtSource. cbn. unfold waiting. by eauto 10. }
  pose proof D as [Hd Hs Hk Hb Hq Ho Hm [st Hst]].
  split; [done|]. split; [by destruct Hm as [-> | ->]|]. split.
  { intros C. destruct st; cbn in Hst; unfold waiting in Hst; rewrite C in Hst;
      decompose [and or ex] Hst; discriminate. }
  intros S.
  destruct (doomed_progress _ _ D) as [C|(t & s' & E)]; [|by rewrite S in E].
  split; [done|]. destruct Hm as [M|M]; [|done].
  specialize (S Main). cbn in S. unfold step_main in S. by rewrite M in S.
Qed.

End EngineBounds.

(** ** Which names are actions

    [_is_batch_method(name, cls)] walks the batch classes from [cls] down
    through [cls.__subclasses__()]. A class is modelled by what the walk reads
    of it: the names [hasattr] finds on it, each with whether [callable] holds
    of the attribute, and its direct subclasses. *)

Section BatchClasses.

#[warnings="-register-all"]
Inductive BatchClass :=
| mkClass (class_attrs : list (string * bool)) (subclasses : list BatchClass).

Definition class_attrs (c : BatchClass) : list (string * bool) :=
  match c with mkClass attrs _ => attrs end.

Definition subclasses (c : BatchClass) : list BatchClass :=
  match c with mkClass _ subs => subs end.

(** [hasattr(cls, name) and callable(getattr(cls, name))] *)
Fixpoint has_callable (attrs : list (string * bool)) (name : string) : bool :=
  match attrs with
  | [] => false
  | (n, c) :: rest => if String.eqb n name then c else has_callable rest name
  end.

Fixpoint _is_batch_method (name : string) (cls : BatchClass) : bool :=
  match cls with
  | mkClass attrs subs =>
      if has_callable attrs name then true
      else existsb (_is_batch_method name) subs
  end.

(** [c] is [cls] or one of its direct or indirect subclasses. *)
Inductive descends (c : BatchClass) : BatchClass -> Prop :=
| descends_refl : descends c c
| descends_sub cls sub :
    sub ∈ subclasses cls -> descends c sub -> descends c cls.

Fixpoint BatchClass_subclasses_ind (P : BatchClass -> Prop)
    (step : forall attrs subs, Forall P subs -> P (mkClass attrs subs))
    (c : BatchClass) : P c :=
  match c with
  | mkClass attrs subs =>
      step attrs subs
        ((fix go (l : list BatchClass) : Forall P l :=
            match l with
            | [] => List.Forall_nil P
            | x :: l' =>
                List.Forall_cons P x l' (BatchClass_subclasses_ind P step x) (go l')
            end) subs)
  end.

Lemma is_batch_method_descends name cls :
  _is_batch_method name cls = true
  <-> exists c, descends c cls /\ has_callable (class_attrs c) name = true.
Proof.
  induction cls as [attrs subs IH] using BatchClass_subclasses_ind.
  cbn [_is_batch_method]. destruct (has_callable attrs name) eqn:A.
  - split; [|done]. intros _. exists (mkClass attrs subs). split; [constructor|done].
  - rewrite existsb_exists. split.
    + intros (sub & I%list_elem_of_In & B).
      apply (proj1 (Forall_forall _ _) IH) in B as (c & D & C); [|done].
      exists c. split; [|done]. by apply (descends_sub _ _ sub).
    + intros (c & D & C). inversion D as [E|cls sub I D' E]; subst.
      * cbn in C. congruence.
      * cbn in I. exists sub. split; [by apply list_elem_of_In|].
        apply (proj1 (Forall_forall _ _) IH _ I). by exists c.
Qed.

Context {Dataset : Type}.

(** The root of the batch classes ([BaseBatch] in the source). *)
Variable BaseBatch : BatchClass.

(** X21. An attribute call [P.name(...)] is accepted exactly when [BaseBatch]
    or one of its direct or indirect subclasses has an attribute [name] that
    is callable; otherwise it raises AttributeError and nothing changes. A
    class where [name] is present but not callable does not stop the search
    below it. *)
Theorem getattr_accepts_batch_methods (h : @Store Dataset) P o name args kwargs :
  pipelines h !! P = Some o ->
  ((exists c, descends c BaseBatch /\ has_callable (class_attrs c) name = true)
   -> exists R h',
        __getattr__ (fun n => _is_batch_method n BaseBatch) P name args kwargs h
        = (Ok R, h'))
  /\ (~ (exists c, descends c BaseBatch /\ has_callable (class_attrs c) name = true)
      -> __getattr__ (fun n => _is_batch_method n BaseBatch) P name args kwargs h
         = (Raise AttributeError, h)).
Proof.
  intros E. split.
  - intros C%is_batch_method_descends. eexists _, _.
    by apply (getattr_eq (fun n => _is_batch_method n BaseBatch) _ _ o).
  - intros C. unfold __getattr__.
    destruct (_is_batch_method name BaseBatch) eqn:B; [|done].
    by apply is_batch_method_descends in B.
Qed.

End BatchClasses.

(** ** Worked examples, continued *)

Lemma demo_allocated : allocated demo_store (mkPipe (Some 7) [0]).
Proof. repeat constructor. by exists demo_scale. Qed.



Lemma demo_no_proba a (d : @Action nat) :
  actions demo_store !! a = Some d -> a_proba d = None.
Proof. destruct a as [|[|a]]; cbn; intros E; by simplify_eq. Qed.

Lemma getattr_appends_witness :
  exists R a h',
    __getattr__ demo_is_method 0 "flip" [] [] demo_store = (Ok R, h')
    /\ pipelines h' !! R = Some (mkPipe (Some 7) [0; a])
    /\ actions h' !! a = Some (mkAction "flip" [] [] None None None None).
Proof.
  destruct (getattr_appends demo_is_method demo_store 0 (mkPipe (Some 7) [0])
              "flip" [] [] eq_refl) as [_ K].
  destruct (K eq_refl) as (R & a & h' & E & _ & _ & L & A & _).
  exists R, a, h'. split; [exact E|]. split; [exact L|exact A].
Defined.

Lemma mul_checks_witness :
  __mul__ 0 (VInt (-1)) demo_store = (Raise ValueError, demo_store)
  /\ __mul__ 0 (VNpInt (-1)) demo_store = (Raise ValueError, demo_store)
  /\ __mul__ 0 (VFloat 2.5) demo_store = (Raise ValueError, demo_store)
  /\ __mul__ 0 (VStr "twice") demo_store = (Raise TypeError, demo_store)
  /\ __mul__ 0 (VNpInt 2) demo_store = (Raise UnboundLocalError, demo_store)
  /\ exists R h', __mul__ 0 (VInt 0) demo_store = (Ok R, h').
Proof.
  destruct (mul_checks demo_store 0 (mkPipe (Some 7) [0]) eq_refl demo_allocated)
    as (A & B & _ & C & _ & D & _ & F).
  split; [apply A; lia|]. split; [apply A; lia|]. split; [apply B|].
  split; [apply C|]. split; [apply D; lia|apply F; lia].
Defined.

Lemma add_empty_left_witness :
  exists R h',
    __add__ demo_truthy 3 (VPipeline 0) demo_store = (Ok R, h')
    /\ pipelines h' !! R = Some (mkPipe (Some 7) [0])
    /\ pipelines h' !! 0 = Some (mkPipe (Some 7) [0]).
Proof.
  assert (N : _action_list (mkPipe (Some 7) [0]) ≠ []) by discriminate.
  destruct (add_empty_left demo_truthy demo_store 3 0 (mkPipe None [])
              (mkPipe (Some 7) [0]) eq_refl eq_refl eq_refl N (or_introl eq_refl))
    as (R & h' & E & _ & L & Q & _).
  exists R, h'. split; [exact E|]. split; [exact L|exact Q].
Defined.

Lemma concat_assoc_witness :
  exists o,
    pipelines (concat demo_truthy 4 1 (concat demo_truthy 0 1 demo_store).2).2 !! 6
    = Some o
    /\ pipelines (concat demo_truthy 0 4 (concat demo_truthy 1 1 demo_store).2).2 !! 6
       = Some o.
Proof.
  destruct (concat_assoc demo_truthy demo_store 0 1 1 4 _ 6 _ 4 _ 6 _
              eq_refl eq_refl eq_refl eq_refl) as (o & A & B & _).
  exists o. split; [exact A|exact B].
Defined.

Lemma lshift_rebinds_witness :
  exists P' Q' h1 h2,
    __lshift__ 0 (ODataset 5) demo_store = (Ok P', h1)
    /\ __lshift__ 1 (ODataset 6) h1 = (Ok Q', h2)
    /\ pipelines h2 !! 0 = Some (mkPipe (Some 7) [0])
    /\ concat demo_truthy P' Q' h2 = (Raise ValueError, h2).
Proof.
  destruct (lshift_rebinds demo_truthy demo_store 0 1 (mkPipe (Some 7) [0])
              (mkPipe None [1]) 5 6 eq_refl eq_refl)
    as (_ & P' & Q' & h1 & h2 & E1 & E2 & _ & _ & K & _ & _ & N & _).
  exists P', Q', h1, h2. split; [exact E1|]. split; [exact E2|].
  split; [exact K|]. apply N. discriminate.
Defined.

Lemma demo_exclusive : exclusive demo_store.
Proof. intros a d E. left. by apply (demo_no_proba a). Qed.

Lemma operators_keep_exclusive_witness :
  exclusive (__matmul__ 0 (VFloat 0.5) demo_store).2
  /\ exclusive (__mul__ 2 (VInt 3) demo_store).2.
Proof.
  destruct (operators_keep_exclusive demo_truthy demo_is_method demo_store
              demo_exclusive) as (_ & A & B & _).
  split; [apply A|apply B].
Defined.



Lemma mul_empty_recursion_witness :
  exists R h',
    __mul__ 3 (VInt 2) demo_store = (Ok R, h')
    /\ _exec demo_index demo_create demo_call demo_binomial h' 1000 R 5%Z
         (mkExecSt tt [])
       = (Raise RecursionError, mkExecSt tt []).
Proof.
  destruct (mul_empty_recursion demo_index demo_create demo_call demo_binomial
              demo_store 3 (mkPipe None []) 2 eq_refl eq_refl) as (R & h' & E & X);
    [lia|].
  exists R, h'. split; [exact E|apply X].
Defined.


Lemma repeat_applies_n_times_witness :
  exists R h',
    __mul__ 0 (VInt 3) demo_store = (Ok R, h')
    /\ _exec demo_index demo_create demo_call demo_binomial h' 1 R 5%Z
         (mkExecSt tt [])
       = (Ok 40%Z,
          mkExecSt tt [mkCall 5%Z "scale" [AVal (VInt 2)] [];
                       mkCall 10%Z "scale" [AVal (VInt 2)] [];
                       mkCall 20%Z "scale" [AVal (VInt 2)] []]).
Proof.
  destruct (repeat_applies_n_times demo_index demo_create demo_call demo_binomial
              demo_store 0 (mkPipe (Some 7) [0]) 0 demo_scale 3
              (fun x => (2 * x)%Z) eq_refl eq_refl eq_refl eq_refl eq_refl)
    as (R & h' & E & X); [discriminate|discriminate|lia|done|].
  exists R, h'. split; [exact E|apply X].
Defined.

Lemma exec_without_proba_draws_nothing_witness :
  _exec demo_index demo_create demo_call demo_binomial demo_store 3 2 5%Z
    (mkExecSt tt [])
  = _exec demo_index demo_create demo_call
      (fun _ _ (g : unit) => (Raise ValueError, g)) demo_store 3 2 5%Z
      (mkExecSt tt []).
Proof.
  apply (exec_without_proba_draws_nothing demo_index demo_create demo_call
           demo_binomial demo_store _ demo_no_proba).
Defined.

Lemma proba_gate_witness :
  exists R h',
    __matmul__ 0 (VFloat 0.5) demo_store = (Ok R, h')
    /\ _exec demo_index demo_create demo_call
         (fun _ _ (g : unit) => (Ok 0%Z, g)) h' 1 R 5%Z (mkExecSt tt [])
       = (Ok 5%Z, mkExecSt tt []).
Proof.
  destruct (proba_gate demo_index demo_create demo_call
              (fun _ _ (g : unit) => (Ok 0%Z, g))
              demo_store 0 (mkPipe (Some 7) [0]) 0 demo_scale 0.5%float
              eq_refl eq_refl eq_refl eq_refl eq_refl)
    as (R & h' & E & X); [discriminate|discriminate|reflexivity|reflexivity|].
  exists R, h'. split; [exact E|apply X].
Defined.

Lemma demo_skip_or_ok :
  Forall (fun b => demo_exec_skip b = Raise SkipBatchException
                   \/ succeeds demo_exec_skip b) [1; 2; 3].
Proof.
  repeat (apply List.Forall_cons; [first [by left | right; by eexists]|]).
  apply List.Forall_nil.
Qed.

Lemma inline_skips_exactly_witness :
  gen_batch_inline demo_exec_skip [1; 2; 3] = ([10; 30], None)
  /\ gen_batch_inline demo_exec_error [1; 2; 3] = ([10], Some ValueError).
Proof.
  split.
  - apply (inline_skips_exactly demo_exec_skip [1; 2; 3] demo_skip_or_ok).
  - assert (F : Forall (fun b => demo_exec_error b = Raise SkipBatchException
                                 \/ succeeds demo_exec_error b) [1]).
    { apply List.Forall_cons; [right; by eexists|apply List.Forall_nil]. }
    apply (proj2 (inline_skips_exactly demo_exec_error [1] F) 2 ValueError [3]);
      [reflexivity|discriminate].
Defined.

Lemma every_run_is_bounded_witness :
  length demo_schedule_error <= 12 * length [1; 2; 3] + 12.
Proof.
  eapply (every_run_is_bounded demo_exec_error demo_is_none 1 "threads" [1; 2; 3]
            (demo_start 1) demo_schedule_error);
    [lia|reflexivity|vm_compute; reflexivity].
Defined.

Lemma delivery_is_schedule_independent_witness :
  exists s1 s2,
    run demo_exec_error demo_is_none demo_schedule_error (demo_start 1) = Some s1
    /\ run demo_exec_error demo_is_none (take 25 demo_schedule_error) (demo_start 1) = Some s2
    /\ (yielded s1 `prefix_of` yielded s2 \/ yielded s2 `prefix_of` yielded s1).
Proof.
  eexists _, _. split; [vm_compute; reflexivity|].
  split; [vm_compute; reflexivity|].
  eapply (delivery_is_schedule_independent demo_exec_error demo_is_none 1 "threads" [1; 2; 3]
            (demo_start 1) demo_schedule_error _ (take 25 demo_schedule_error));
    [lia|reflexivity|vm_compute; reflexivity|vm_compute; reflexivity].
Defined.


(** The chain fails on the first batch. *)
Definition demo_exec_first_error (b : nat) : result nat :=
  if Nat.eqb b 1 then Raise ValueError else Ok (10 * b).

Definition demo_schedule_crash : list thread :=
  [Producer; Producer; Producer; Producer; Consumer; Consumer; Worker 0;
   Consumer; Consumer].

Lemma first_batch_failure_stops_delivery_witness :
  exists s,
    run demo_exec_first_error demo_is_none demo_schedule_crash (demo_start 1) = Some s
    /\ consumer s = CCrashed UnboundLocalError
    /\ yielded s = [] /\ main s ≠ MDone.
Proof.
  eexists. split; [vm_compute; reflexivity|]. split; [reflexivity|].
  split;
    eapply (first_batch_failure_stops_delivery demo_exec_first_error demo_is_none 1 "threads"
              1 [2; 3] ValueError (demo_start 1) demo_schedule_crash);
    first [lia | discriminate | vm_compute; reflexivity].
Defined.

(** A base class with a data attribute [scale] and one subclass in which
    [scale] is a method. *)
Definition demo_classes : BatchClass :=
  mkClass [("scale", false); ("data", false)]
          [mkClass [("scale", true); ("data", false)] []].

Lemma getattr_accepts_batch_methods_witness :
  (exists R h',
      __getattr__ (fun n => _is_batch_method n demo_classes) 0 "scale"
        [VInt 2] [] demo_store = (Ok R, h'))
  /\ __getattr__ (fun n => _is_batch_method n demo_classes) 0 "data" [] []
       demo_store = (Raise AttributeError, demo_store).
Proof.
  destruct (getattr_accepts_batch_methods demo_classes demo_store 0
              (mkPipe (Some 7) [0]) "scale" [VInt 2] [] eq_refl) as [A _].
  destruct (getattr_accepts_batch_methods demo_classes demo_store 0
              (mkPipe (Some 7) [0]) "data" [] [] eq_refl) as [_ B].
  split.
  - apply A. exists (mkClass [("scale", true); ("data", false)] []).
    split; [|reflexivity].
    apply (descends_sub _ demo_classes (mkClass [("scale", true); ("data", false)] []));
      [by left|constructor].
  - apply B. intros (c & D & C).
    inversion D as [E|cls sub I D' E]; subst; [discriminate|].
    cbn in I. apply list_elem_of_singleton in I. subst sub.
    inversion D' as [E|cls sub I D'' E]; subst; [discriminate|].
    cbn in I. by apply elem_of_nil in I.
Defined.
